(** * psd_tools.composer.vector: vector masks and fill rasters

    A shallow embedding of [src/psd_tools/composer/vector.py] and the
    properties its specification states about it.

    Conventions of the embedding.
    - Python [int] is [Z]; Python [float] is modelled by exact rationals [Q]
      where the statements concern control flow, table lookups and the
      shape of the data, and by IEEE binary64 numbers ([SpecFloat]) in the
      scaled size of a pattern tile, where the truncated product depends on
      the rounding.
    - A Python function that can raise or log is a computation in the monad
      [Py.M]: an outcome (a value or an exception) with the log records
      emitted so far.  [None] is [option]'s [None].
    - A PIL image is a record of its mode string, its size and its bands,
      each band a row-major list of 8-bit values.  In-place mutation
      ([putalpha], [paste]) is state passing: the operation returns the
      updated image.
    - The external backends (aggdraw's path filling, numpy's and scipy's
      numeric routines, PIL's resampling and colour conversion) are
      interfaces; the code is verified against every implementation. *)

From Stdlib Require Import ZArith QArith Qround Qabs Qminmax List String Ascii Bool Lia.
From Stdlib Require Import Sorted Lqa.
From Stdlib Require Floats.SpecFloat.
Import ListNotations.

Local Open Scope string_scope.
Local Open Scope list_scope.
Local Open Scope Z_scope.

(** ** Python outcomes and logging *)

Module Py.

Inductive exn : Type :=
| AttributeError
| ImportError
| ValueError
| ZeroDivisionError
| AssertionError
| KeyError
| TypeError
| OverflowError.

Inductive level : Type := DEBUG | WARNING | ERROR.

(** A log record: its level and the fixed part of its message. *)
Definition log_record : Type := (level * string)%type.

Inductive outcome (A : Type) : Type :=
| Return (a : A)
| Raise (e : exn).
Arguments Return {A} a.
Arguments Raise {A} e.

Definition M (A : Type) : Type := (outcome A * list log_record)%type.

Definition ret {A} (a : A) : M A := (Return a, []).
Definition raise {A} (e : exn) : M A := (Raise e, []).
Definition logger (lv : level) (msg : string) : M unit := (Return tt, [(lv, msg)]).

Definition bind {A B} (m : M A) (f : A -> M B) : M B :=
  match m with
  | (Return a, l) => let (o, l') := f a in (o, l ++ l')
  | (Raise e, l) => (Raise e, l)
  end.

(** [for x in l: s = f(s, x)] *)
Fixpoint for_each {A S} (f : S -> A -> M S) (l : list A) (s : S) : M S :=
  match l with
  | [] => ret s
  | a :: r => bind (f s a) (for_each f r)
  end.

Definition result {A} (m : M A) : outcome A := fst m.
Definition logs {A} (m : M A) : list log_record := snd m.

End Py.
Import Py.

Notation "x <- m ;; k" := (bind m (fun x => k))
  (at level 61, m at next level, right associativity).
Notation "m ;;; k" := (bind m (fun _ => k))
  (at level 61, right associativity).

(** ** Python helpers *)

(** [int(x)] of a float: truncation towards zero. *)
Definition py_int (q : Q) : Z := Z.quot (Qnum q) (Zpos (Qden q)).

(** [x % m] on floats, for a positive [m]: the result has the sign of [m]. *)
Definition py_fmod (x m : Q) : Q := (x - m * inject_Z (Qfloor (x / m)))%Q.

(** Python floats as IEEE binary64 numbers, rounded to nearest even. *)
Definition py_float : Type := SpecFloat.spec_float.

(** [float(n)] of an integer. *)
Definition float_of_int (n : Z) : py_float := SpecFloat.binary_normalize 53 1024 n 0 false.

Definition float_mul : py_float -> py_float -> py_float := SpecFloat.SFmul 53 1024.
Definition float_div : py_float -> py_float -> py_float := SpecFloat.SFdiv 53 1024.

(** The float a descriptor holds, given as a rational: the rational itself
    when it is a binary64 number, the rounded quotient of its numerator and
    its denominator otherwise. *)
Definition float_of_Q (q : Q) : py_float :=
  float_div (float_of_int (Qnum q)) (float_of_int (Zpos (Qden q))).

(** [int(x)] of a float: truncation towards zero; an infinity raises
    [OverflowError], a NaN [ValueError]. *)
Definition float_int (x : py_float) : M Z :=
  match x with
  | SpecFloat.S754_zero _ => ret 0
  | SpecFloat.S754_finite s m e =>
      let n := if 0 <=? e then Zpos m * 2 ^ e else Zpos m / 2 ^ (- e) in
      ret (if s then - n else n)
  | SpecFloat.S754_infinity _ => raise OverflowError
  | SpecFloat.S754_nan => raise ValueError
  end.

(** [range(start, stop, step)]: [ValueError] on a zero step. *)
Definition py_range (start stop step : Z) : M (list Z) :=
  if step =? 0 then raise ValueError
  else if 0 <? step then
    ret (map (fun i => start + Z.of_nat i * step)
             (seq 0 (Z.to_nat ((stop - start + step - 1) / step))))
  else
    ret (map (fun i => start + Z.of_nat i * step)
             (seq 0 (Z.to_nat ((start - stop - step - 1) / (- step))))).

(** [s.endswith(c)] for a one-character suffix. *)
Fixpoint endswith (s : string) (c : ascii) : bool :=
  match s with
  | EmptyString => false
  | String a EmptyString => Ascii.eqb a c
  | String _ r => endswith r c
  end.

(** [s.rstrip(c)]: every trailing [c] is removed. *)
Fixpoint rstrip (s : string) (c : ascii) : string :=
  match s with
  | EmptyString => EmptyString
  | String a r =>
      match rstrip r c with
      | EmptyString => if Ascii.eqb a c then EmptyString else String a EmptyString
      | r' => String a r'
      end
  end.

(** [d.get(key, default)] on a dict literal with string keys. *)
Fixpoint dict_get {V} (d : list (string * V)) (key : string) (default : V) : V :=
  match d with
  | [] => default
  | (k, v) :: r => if String.eqb k key then v else dict_get r key default
  end.

Fixpoint zip_with {A B C} (f : A -> B -> C) (l : list A) (l' : list B) : list C :=
  match l, l' with
  | a :: r, b :: r' => f a b :: zip_with f r r'
  | _, _ => []
  end.

(** ** PIL images *)

Module PIL.

(** One band of an image, row-major. *)
Definition plane : Type := list Z.

Record image : Type := mkImage {
  mode : string;
  size : Z * Z;            (* (width, height) *)
  bands : list plane
}.

Definition width (im : image) : Z := fst (size im).
Definition height (im : image) : Z := snd (size im).

(** Saturation of a value to 8 bits, as the C core stores it. *)
Definition clip8 (v : Z) : Z := Z.max 0 (Z.min 255 v).

(** The integers that an argument parsed as a C [int] accepts; the others
    raise [OverflowError]. *)
Definition c_int (v : Z) : bool := (- 2 ^ 31 <=? v) && (v <? 2 ^ 31).

Definition zrange (n : Z) : list Z := map Z.of_nat (seq 0 (Z.to_nat n)).

(** The [w] x [h] plane whose value at column [x], row [y] is [f x y]. *)
Definition mk_plane (w h : Z) (f : Z -> Z -> Z) : plane :=
  flat_map (fun y => map (fun x => f x y) (zrange w)) (zrange h).

(** The value of a plane of width [w] at column [x], row [y]. *)
Definition getpixel (w : Z) (p : plane) (x y : Z) : Z :=
  nth (Z.to_nat (y * w + x)) p 0.

Definition getmodebands (m : string) : option nat :=
  dict_get [("1", Some 1%nat); ("L", Some 1%nat); ("P", Some 1%nat);
            ("LA", Some 2%nat); ("PA", Some 2%nat);
            ("RGB", Some 3%nat); ("YCbCr", Some 3%nat); ("LAB", Some 3%nat);
            ("HSV", Some 3%nat);
            ("RGBA", Some 4%nat); ("RGBX", Some 4%nat); ("CMYK", Some 4%nat)]
           m None.

(** The ink of an integer colour: saturated for a one-band mode, one byte
    per band otherwise (the module passes 0 for every other mode). *)
Definition getink (nbands : nat) (color : Z) : list Z :=
  match nbands with
  | 1%nat => [clip8 color]
  | _ => map (fun k => Z.land (Z.shiftr color (8 * Z.of_nat k)) 255) (seq 0 nbands)
  end.

(** [Image.new(mode, size, color)] *)
Definition Image_new (m : string) (sz : Z * Z) (color : Z) : M image :=
  let (w, h) := sz in
  if (w <? 0) || (h <? 0) then raise ValueError
  else match getmodebands m with
       | None => raise ValueError
       | Some n =>
           ret (mkImage m sz
                  (map (fun v => repeat v (Z.to_nat (w * h))) (getink n color)))
       end.

(** [ImageChops]: band-wise, pixel-wise operations, saturated to 8 bits. *)
Definition chop (f : Z -> Z -> Z) (a b : image) : image :=
  mkImage (mode a) (size a)
    (zip_with (zip_with (fun x y => clip8 (f x y))) (bands a) (bands b)).

Definition difference : image -> image -> image := chop (fun x y => Z.abs (x - y)).
Definition lighter : image -> image -> image := chop Z.max.
Definition darker : image -> image -> image := chop Z.min.
(** [ImageChops.subtract(a, b)] with its default [scale=1.0], [offset=0]. *)
Definition subtract : image -> image -> image := chop (fun x y => x - y).
Definition invert (a : image) : image :=
  mkImage (mode a) (size a) (map (map (fun x => 255 - x)) (bands a)).

(** [im.crop((x0, y0, x1, y1))]: a box with [x1 < x0] or [y1 < y0] raises
    [ValueError]; the part of the box outside the image is zero. *)
Definition crop (im : image) (box : Z * Z * Z * Z) : M image :=
  let '(x0, y0, x1, y1) := box in
  if (x1 <? x0) || (y1 <? y0) then raise ValueError
  else
    let w := x1 - x0 in
    let h := y1 - y0 in
    ret (mkImage (mode im) (w, h)
           (map (fun p =>
                   mk_plane w h (fun x y =>
                     let sx := x0 + x in
                     let sy := y0 + y in
                     if (0 <=? sx) && (sx <? width im) && (0 <=? sy) && (sy <? height im)
                     then getpixel (width im) p sx sy
                     else 0))
                (bands im))).

(** [im.paste(src, (x0, y0))] for a source of the same mode: the part of
    the source that falls inside [im] overwrites it. *)
Definition paste (im src : image) (at_ : Z * Z) : image :=
  let (x0, y0) := at_ in
  mkImage (mode im) (size im)
    (zip_with (fun p sp =>
            mk_plane (width im) (height im) (fun x y =>
              if (x0 <=? x) && (x <? x0 + width src)
                 && (y0 <=? y) && (y <? y0 + height src)
              then getpixel (width src) sp (x - x0) (y - y0)
              else getpixel (width im) p x y))
         (bands im) (bands src)).

End PIL.
Import PIL.

(** ** Vector masks: the data model *)

(** A knot of a bezier path: the anchor and its two handles, each a pair of
    normalised coordinates indexed [0] and [1]. *)
Record knot : Type := mkKnot {
  preceding : Q * Q;
  anchor : Q * Q;
  leaving : Q * Q
}.

Record subpath : Type := mkSubpath {
  knots : list knot;
  is_closed : bool;
  operation : Z
}.

Record vector_mask : Type := mkVectorMask {
  initial_fill_rule : Z;
  paths : list subpath
}.

(** What [draw_vector_mask] reads of a layer: the canvas size of its
    document, its vector mask and its bounding box
    [(left, top, right, bottom)]. *)
Record layer : Type := mkLayer {
  psd_width : Z;
  psd_height : Z;
  layer_vector_mask : vector_mask;
  bbox : Z * Z * Z * Z
}.

(** An element of the SVG-like path sequence: a command letter or a number. *)
Inductive token : Type :=
| Cmd (c : string)
| Num (q : Q).

Definition eight_bit (p : plane) : Prop := Forall (fun v => 0 <= v <= 255) p.

(** The path-filling backend (aggdraw): [draw_symbol mask path] is the image
    after [Draw(mask)], [symbol((0, 0), Symbol(path), None, Brush(255))] and
    [flush()].  It paints in place: mode, size and band layout are kept,
    8-bit bands stay 8-bit, and an empty path paints nothing. *)
Class Rasterizer : Type := {
  draw_symbol : image -> list token -> image;
  draw_symbol_mode : forall im t, mode (draw_symbol im t) = mode im;
  draw_symbol_size : forall im t, size (draw_symbol im t) = size im;
  draw_symbol_bands : forall im t,
    Forall2 (fun p q => List.length q = List.length p /\ (eight_bit p -> eight_bit q))
            (bands im) (bands (draw_symbol im t));
  draw_symbol_empty : forall im, draw_symbol im [] = im
}.

(** ** Path rasterizer *)

(** [_generate_symbol(path, width, height, command='C')], the sequence the
    generator yields. *)
Definition _generate_symbol (path : subpath) (width height : Z) (command : string)
  : list token :=
  match knots path with
  | [] => []
  | p0 :: _ =>
      let points :=
        if is_closed path
        then combine (knots path) (tl (knots path) ++ firstn 1 (knots path))
        else combine (knots path) (tl (knots path)) in
      [Cmd "M";
       Num (snd (anchor p0) * inject_Z width)%Q;
       Num (fst (anchor p0) * inject_Z height)%Q;
       Cmd command]
      ++ flat_map (fun '(p1, p2) =>
           [Num (snd (leaving p1) * inject_Z width)%Q;
            Num (fst (leaving p1) * inject_Z height)%Q;
            Num (snd (preceding p2) * inject_Z width)%Q;
            Num (fst (preceding p2) * inject_Z height)%Q;
            Num (snd (anchor p2) * inject_Z width)%Q;
            Num (fst (anchor p2) * inject_Z height)%Q]) points
      ++ (if is_closed path then [Cmd "Z"] else [])
  end.

Section VectorMask.

Context {R : Rasterizer}.

(** [_draw_subpath(subpath, width, height)].  The source joins the
    sequence into a string that [aggdraw.Symbol] parses back; the model
    hands the sequence over as it is. *)
Definition _draw_subpath (sp : subpath) (width height : Z) : M image :=
  mask <- Image_new "L" (width, height) 0 ;;
  let path := _generate_symbol sp width height "C" in
  ret (draw_symbol mask path).

(** The body of the loop of [draw_vector_mask], on the pair
    [(mask, first)]. *)
Definition combine_subpath (width height : Z) (st : image * bool) (sp : subpath)
  : M (image * bool) :=
  let (mask, first) := st in
  plane <- _draw_subpath sp width height ;;
  let mask :=
    if operation sp =? 0 then difference mask plane
    else if operation sp =? 1 then lighter mask plane
    else if operation sp =? 2 then
      subtract (if first then invert mask else mask) plane
    else if operation sp =? 3 then
      darker (if first then invert mask else mask) plane
    else mask in
  ret (mask, false).

(** [draw_vector_mask] up to its last line: the accumulator and the
    [first] flag when the loop ends. *)
Definition accumulate_mask (l : layer) : M (image * bool) :=
  let width := psd_width l in
  let height := psd_height l in
  let color := 255 * initial_fill_rule (layer_vector_mask l) in
  mask <- Image_new "L" (width, height) color ;;
  for_each (combine_subpath width height) (paths (layer_vector_mask l)) (mask, true).

(** [draw_vector_mask(layer)] *)
Definition draw_vector_mask (l : layer) : M image :=
  st <- accumulate_mask l ;;
  crop (fst st) (bbox l).

End VectorMask.

(** ** Descriptors *)

(** A colour stop of a gradient: [Key.Location] (0..4096) and the channel
    values of [Key.Color]. *)
Record color_stop : Type := mkColorStop {
  cs_Location : Z;
  cs_Color : list Q
}.

(** A transparency stop: [Key.Location] and [Key.Opacity] in percent. *)
Record transparency_stop : Type := mkTransparencyStop {
  ts_Location : Z;
  ts_Opacity : Q
}.

Inductive gradient_form : Type :=
| ColorNoise
| CustomStops
| OtherForm (code : string).

Inductive gradient_kind : Type :=
| Linear
| Radial
| Angle
| Reflected
| Diamond
| OtherKind (code : string).

(** The gradient descriptor ([Key.Gradient]); a key that is absent is [None]. *)
Record gradient : Type := mkGradient {
  Type_GradientForm : option gradient_form;
  Key_Colors : option (list color_stop);
  Key_Transparency : option (list transparency_stop);
  Key_Smoothness : option Q;
  Key_Maximum : option (list Q);
  Key_Minimum : option (list Q);
  Key_RandomSeed : option Z
}.

(** A fill setting descriptor, with the keys this module reads. *)
Record descriptor : Type := mkDescriptor {
  Key_Opacity : option Q;
  Key_Scale : option Q;
  Key_Angle : option Q;
  Key_Type : option gradient_kind;
  Key_Reverse : option bool;
  Key_Gradient : option gradient;
  Pattern_ID : option string
}.

(** [d.get(key, default)] on a descriptor. *)
Definition get {A} (v : option A) (default : A) : A :=
  match v with
  | Some a => a
  | None => default
  end.

(** ** Opacity *)

(** PIL's resampling, colour conversion and raw decoding, which this module
    only calls: [convert_colour from to bands] are the colour bands of
    [im.convert], [resize_bands im size] the bands of [im.resize(size)],
    and [fromarray_raw nch pixels mode] is what [Image.fromarray] makes of
    an array whose [nch] channels are not the bands of [mode], which it
    decodes as raw bytes or refuses. *)
Class Imaging : Type := {
  convert_colour : string -> string -> list plane -> list plane;
  resize_bands : image -> Z * Z -> list plane;
  fromarray_raw : nat -> list (list (list Z)) -> string -> M image
}.

Definition getmodebase (m : string) : option string :=
  dict_get [("1", Some "L"); ("L", Some "L"); ("LA", Some "L");
            ("P", Some "RGB"); ("PA", Some "RGB");
            ("RGB", Some "RGB"); ("RGBA", Some "RGB"); ("RGBX", Some "RGB");
            ("CMYK", Some "RGB"); ("YCbCr", Some "RGB"); ("LAB", Some "RGB");
            ("HSV", Some "RGB")]
           m None.

Definition has_alpha_mode (m : string) : bool :=
  String.eqb m "LA" || String.eqb m "PA" || String.eqb m "RGBA".

(** The alpha band of an image in an alpha mode is its last band. *)
Definition alpha_band (im : image) : plane := last (bands im) [].

Definition set_alpha_band (im : image) (a : plane) : image :=
  mkImage (mode im) (size im) (removelast (bands im) ++ [a]).

Section Fill.

Context {I : Imaging}.

(** The first half of [im.putalpha]: an image without alpha is promoted
    to the alpha mode of its base mode, with an opaque alpha band. *)
Definition promote_alpha (im : image) : M image :=
  if has_alpha_mode (mode im) then ret im
  else match getmodebase (mode im) with
       | None => raise ValueError
       | Some base =>
           let colour :=
             if String.eqb (mode im) base then bands im
             else convert_colour (mode im) base (bands im) in
           ret (mkImage (base ++ "A")%string (size im)
                  (colour ++ [repeat 255 (Z.to_nat (width im * height im))]))
       end.

(** [im.putalpha(v)] for an integer [v]: after the promotion, [fillband]
    parses the value as a C [int] and fills the alpha band with it,
    saturated to 8 bits. *)
Definition putalpha_const (im : image) (v : Z) : M image :=
  im' <- promote_alpha im ;;
  if c_int v
  then ret (set_alpha_band im' (repeat (clip8 v) (Z.to_nat (width im * height im))))
  else raise OverflowError.

(** [im.putalpha(alpha)] for an image [alpha] of mode L. *)
Definition putalpha_image (im alpha : image) : M image :=
  im' <- promote_alpha im ;;
  if String.eqb (mode alpha) "L" || String.eqb (mode alpha) "1"
  then ret (set_alpha_band im' (hd [] (bands alpha)))
  else raise ValueError.

(** [im.getchannel('A')]: the band named A, the last one of an alpha mode
    and the second one of LAB. *)
Definition getchannel_A (im : image) : M image :=
  if has_alpha_mode (mode im)
  then ret (mkImage "L" (size im) [alpha_band im])
  else if String.eqb (mode im) "LAB"
  then ret (mkImage "L" (size im) [nth 1 (bands im) []])
  else raise ValueError.

(** [im.point(f)] on an 8-bit image: a lookup table of [f], saturated. *)
Definition point (f : Z -> Z) (im : image) : image :=
  mkImage (mode im) (size im) (map (map (fun v => clip8 (f v))) (bands im)).

Definition opacity_of (setting : descriptor) : Z :=
  py_int (get (Key_Opacity setting) (inject_Z 100)).

(** [_apply_opacity(image, setting)]; the image is mutated in place, the
    model returns it.  The argument may be [None]. *)
Definition _apply_opacity (img : option image) (setting : descriptor)
  : M (option image) :=
  let opacity := opacity_of setting in
  if negb (opacity =? 100) then
    match img with
    | None => raise AttributeError
    | Some im =>
        if endswith (mode im) "A" then
          alpha <- getchannel_A im ;;
          let alpha :=
            point (fun x => py_int (inject_Z (x * opacity) / inject_Z 100)%Q) alpha in
          im' <- putalpha_image im alpha ;;
          ret (Some im')
        else
          im' <- putalpha_const im (opacity * 255) ;;
          ret (Some im')
    end
  else ret img.

(** ** Pattern fill *)

(** What [draw_pattern_fill] reads of the document: the pattern found
    under an id, already converted to an image ([psd._get_pattern]
    followed by [convert_pattern_to_pil]). *)
Definition psd_image : Type := string -> option image.

Definition resize (im : image) (sz : Z * Z) : image :=
  mkImage (mode im) sz (resize_bands im sz).

(** The scaled panel of [draw_pattern_fill], in float arithmetic. *)
Definition scale_panel (panel : image) (setting : descriptor) : M image :=
  let scale :=
    float_div (float_of_Q (get (Key_Scale setting) (inject_Z 100))) (float_of_int 100) in
  if negb (SpecFloat.SFeqb scale (float_of_int 1)) then
    w <- float_int (float_mul (float_of_int (width panel)) scale) ;;
    h <- float_int (float_mul (float_of_int (height panel)) scale) ;;
    ret (resize panel (Z.max 1 w, Z.max 1 h))
  else ret panel.

(** The two loops of [draw_pattern_fill]. *)
Definition tile (pattern_image panel : image) : M image :=
  tops <- py_range 0 (height pattern_image) (height panel) ;;
  for_each (fun im top =>
      lefts <- py_range 0 (width pattern_image) (width panel) ;;
      for_each (fun im left => ret (paste im panel (left, top))) lefts im)
    tops pattern_image.

(** [draw_pattern_fill(size, psd, setting)] *)
Definition draw_pattern_fill (sz : Z * Z) (psd : psd_image) (setting : descriptor)
  : M (option image) :=
  match Pattern_ID setting with
  | None => raise KeyError
  | Some id =>
      let pattern_id := rstrip id zero in
      match psd pattern_id with
      | None => logger ERROR "Pattern not found" ;;; ret None
      | Some panel =>
          panel <- scale_panel panel setting ;;
          panel <- _apply_opacity (Some panel) setting ;;
          match panel with
          | None => raise AttributeError
          | Some panel =>
              pattern_image <- Image_new (mode panel) sz 0 ;;
              pattern_image <- tile pattern_image panel ;;
              ret (Some pattern_image)
          end
      end
  end.

End Fill.

(** ** Gradient fill *)

(** Which optional packages can be imported. *)
Record environment : Type := mkEnvironment {
  numpy_available : bool;
  scipy_available : bool
}.

(** The numeric routines of numpy and scipy that the module calls.
    [interp1d X Y z] is [G(z)] for
    [G = interpolate.interp1d(X, Y, axis=0, bounds_error=False,
    fill_value=(Y[0], Y[-1]))]; [rng_binomial seed rows cols] is
    [RandomState(seed).binomial(1, .5, (rows, cols))]; the two filters run
    along axis 0; [np_float_alias] tells whether the installed numpy still
    has the alias [np.float]. *)
Class Numeric : Type := {
  np_float_alias : bool;
  np_cos : Q -> Q;
  np_sin : Q -> Q;
  np_sqrt : Q -> Q;
  np_arctan2 : Q -> Q -> Q;
  np_pi : Q;
  interp1d : list Q -> list (list Q) -> Q -> list Q;
  rng_binomial : Z -> nat -> nat -> list (list Q);
  maximum_filter1d : list (list Q) -> Z -> list (list Q);
  uniform_filter1d : list (list Q) -> Z -> list (list Q)
}.

(** A two-dimensional array of floats, a list of rows. *)
Definition field : Type := list (list Q).

Definition field_map (f : Q -> Q) (Z0 : field) : field := map (map f) Z0.
Definition field_map2 (f : Q -> Q -> Q) (X Y : field) : field :=
  zip_with (zip_with f) X Y.

(** Python's float division. *)
Definition py_div (a b : Q) : M Q :=
  if Qeq_bool b 0 then raise ZeroDivisionError else ret (a / b)%Q.

(** [np.linspace(start, stop, num)] *)
Definition linspace (start stop : Q) (num : Z) : M (list Q) :=
  if num <? 0 then raise ValueError
  else
    let step := ((stop - start) / inject_Z (num - 1))%Q in
    ret (map (fun i => (start + inject_Z (Z.of_nat i) * step)%Q)
             (seq 0 (Z.to_nat num))).

(** [np.meshgrid(xs, ys)] *)
Definition meshgrid (xs ys : list Q) : field * field :=
  (map (fun _ => xs) ys, map (fun y => map (fun _ => y) xs) ys).

(** The scale that [draw_gradient_fill] divides the canvas by. *)
Definition effective_scale (sz : Z * Z) (setting : descriptor) : Q :=
  let angle := get (Key_Angle setting) 0%Q in
  let scale := (get (Key_Scale setting) (inject_Z 100) / inject_Z 100)%Q in
  let ratio := py_fmod angle (inject_Z 90) in
  (scale * ((inject_Z 90 - ratio) / inject_Z 90 * inject_Z (fst sz)
            + (ratio / inject_Z 90) * inject_Z (snd sz)))%Q.

(** The coordinate fields [X, Y] of [draw_gradient_fill]. *)
Definition coordinate_fields (sz : Z * Z) (setting : descriptor) : M (field * field) :=
  let scale := effective_scale sz setting in
  x0 <- py_div (- inject_Z (fst sz))%Q scale ;;
  x1 <- py_div (inject_Z (fst sz)) scale ;;
  xs <- linspace x0 x1 (fst sz) ;;
  y0 <- py_div (- inject_Z (snd sz))%Q scale ;;
  y1 <- py_div (inject_Z (snd sz)) scale ;;
  ys <- linspace y0 y1 (snd sz) ;;
  ret (meshgrid xs ys).

(** [x.astype(np.uint8)] of a float: truncated, and wrapped when out of
    range. *)
Definition astype_uint8 (q : Q) : Z := (py_int q) mod 256.

(** The modes that [Image.fromarray] decodes one byte per band and per
    pixel, with their number of bands. *)
Definition array_bands (m : string) : option nat :=
  dict_get [("L", Some 1%nat); ("LA", Some 2%nat); ("RGB", Some 3%nat);
            ("RGBA", Some 4%nat); ("CMYK", Some 4%nat)]
           m None.

(** [Image.fromarray(pixels, mode)] for an array of [h] rows of [w] pixels
    of [nch] channels each (the channel axis is dropped by the source when
    [nch] is 1): one band per channel when the channels are the bands of
    the mode. *)
Definition fromarray {I : Imaging} (nch : nat) (pixels : list (list (list Z)))
  (m : string) : M image :=
  if match array_bands m with
     | Some n => Nat.eqb n nch
     | None => false
     end
  then
    ret (mkImage m
           (Z.of_nat (List.length (hd [] pixels)), Z.of_nat (List.length pixels))
           (map (fun k => flat_map (map (fun px => nth k px 0)) pixels) (seq 0 nch)))
  else fromarray_raw nch pixels m.

(** An operation of numpy on two one-dimensional arrays: element by
    element, an array of one element being broadcast; [ValueError] on
    other lengths that differ. *)
Definition broadcast (f : Q -> Q -> Q) (a b : list Q) : M (list Q) :=
  if Nat.eqb (List.length a) (List.length b) then ret (zip_with f a b)
  else match a, b with
       | [x], _ => ret (map (f x) b)
       | _, [y] => ret (map (fun x => f x y) a)
       | _, _ => raise ValueError
       end.

(** The loop that collects stops into the parallel lists [X] and [Y]: a
    stop at the location of the last collected one replaces it. *)
Definition collect_stop {V} (st : list Q * list V) (stop : Z * V)
  : M (list Q * list V) :=
  let (X, Y) := st in
  let location := (inject_Z (fst stop) / inject_Z 4096)%Q in
  if negb (Nat.eqb (List.length X) 0) && Qeq_bool (last X 0%Q) location then
    logger DEBUG "Duplicate stop" ;;;
    ret (removelast X ++ [location], removelast Y ++ [snd stop])
  else
    ret (X ++ [location], Y ++ [snd stop]).

(** The loop, the assertion and the single-stop rule that follow it. *)
Definition collect_stops {V} (stops : list (Z * V)) : M (list Q * list V) :=
  st <- for_each collect_stop stops ([], []) ;;
  let (X, Y) := st in
  match X, Y with
  | [], _ => raise AssertionError
  | [_], y0 :: _ => ret ([0%Q; 1%Q], [y0; y0])
  | _, _ => ret (X, Y)
  end.

(** The unit scalar of the custom-stops branch. *)
Definition mode_scalar (m : string) : Q :=
  dict_get [("RGB", 1%Q); ("L", (255 # 100)%Q); ("CMYK", (255 # 100)%Q)] m 1%Q.

Section Gradient.

Context {I : Imaging} {N : Numeric}.

Definition np_radians (a : Q) : Q := (a * np_pi / inject_Z 180)%Q.

Definition _make_linear_gradient (X Y : field) (angle : Q) : field :=
  let theta := np_radians (py_fmod angle (inject_Z 360)) in
  field_map2 (fun x y => ((1 # 2) * (np_cos theta * x - np_sin theta * y + 1))%Q) X Y.

Definition _make_radial_gradient (X Y : field) : field :=
  field_map2 (fun x y => np_sqrt (x * x + y * y)%Q) X Y.

Definition _make_angle_gradient (X Y : field) (angle : Q) : field :=
  field_map2 (fun x y =>
    (py_fmod (inject_Z 180 * np_arctan2 y x / np_pi + angle) (inject_Z 360)
     / inject_Z 360)%Q) X Y.

Definition _make_reflected_gradient (X Y : field) (angle : Q) : field :=
  let theta := np_radians (py_fmod angle (inject_Z 360)) in
  field_map2 (fun x y => Qabs (np_cos theta * x - np_sin theta * y)%Q) X Y.

Definition _make_diamond_gradient (X Y : field) (angle : Q) : field :=
  let theta := np_radians (py_fmod angle (inject_Z 360)) in
  field_map2 (fun x y =>
    (Qabs (np_cos theta * x - np_sin theta * y)
     + Qabs (np_sin theta * x + np_cos theta * y))%Q) X Y.

(** The noise branch of [_apply_color_map].  A missing smoothness or seed
    has no [value]; a missing maximum or minimum cannot be iterated;
    [RandomState] takes a seed of 32 bits. *)
Definition noise_color_map (m : string) (grad : gradient) (Z0 : field) : M image :=
  logger DEBUG "Noise gradient is not accurate." ;;;
  match Key_Smoothness grad with
  | None => raise AttributeError
  | Some smoothness =>
  let roughness := (smoothness / inject_Z 4096)%Q in
  match Key_Maximum grad with
  | None => raise TypeError
  | Some maximum =>
  match Key_Minimum grad with
  | None => raise TypeError
  | Some minimum =>
  match Key_RandomSeed grad with
  | None => raise AttributeError
  | Some seed =>
      if negb ((0 <=? seed) && (seed <? 2 ^ 32)) then raise ValueError
      else if negb np_float_alias then raise AttributeError
      else
        let G := rng_binomial seed 256 (List.length maximum) in
        let sz := Z.max 1 (py_int (roughness * inject_Z 4)%Q) in
        let G := maximum_filter1d G sz in
        let G := uniform_filter1d G (sz * 64) in
        range <- broadcast Qminus maximum minimum ;;
        G <- for_each (fun rows row =>
               scaled <- broadcast Qmult range row ;;
               shifted <- broadcast Qplus scaled minimum ;;
               ret (rows ++ [map (fun v => astype_uint8 ((255 # 100) * v)%Q) shifted]))
             G [] ;;
        let nch := Nat.max (List.length maximum) (List.length minimum) in
        let pixels :=
          map (map (fun z => nth (Z.to_nat (astype_uint8 (inject_Z 255 * z)%Q)) G [])) Z0 in
        fromarray nch pixels m
  end end end end.

(** The custom-stops branch of [_apply_color_map]; [interp1d] makes an
    array of [Y], which raises [ValueError] when the colours have not all
    the same number of channels. *)
Definition stops_color_map (m : string) (grad : gradient) (Z0 : field) : M image :=
  let scalar := mode_scalar m in
  st <- collect_stops
          (map (fun stop => (cs_Location stop, map (Qmult scalar) (cs_Color stop)))
               (get (Key_Colors grad) [])) ;;
  let (X, Y) := st in
  let nch := List.length (hd [] Y) in
  if negb (forallb (fun y => Nat.eqb (List.length y) nch) Y) then raise ValueError
  else
    let pixels := map (map (fun z => map astype_uint8 (interp1d X Y z))) Z0 in
    image <- fromarray nch pixels (rstrip m "A") ;;
    match Key_Transparency grad with
    | Some stops =>
        if endswith m "A" then
          st <- collect_stops
                  (map (fun stop => (ts_Location stop, (ts_Opacity stop * (255 # 100))%Q))
                       stops) ;;
          let (X, Y) := st in
          let alpha :=
            map (map (fun z => map astype_uint8 (interp1d X (map (fun y => [y]) Y) z))) Z0 in
          alpha <- fromarray 1 alpha "L" ;;
          putalpha_image image alpha
        else ret image
    | None => ret image
    end.

(** [_apply_color_map(mode, grad, Z)]; [grad] may be [None]. *)
Definition _apply_color_map (env : environment) (m : string) (grad : option gradient)
  (Z0 : field) : M (option image) :=
  if negb (numpy_available env) || negb (scipy_available env) then raise ImportError
  else
    match grad with
    | None => raise AttributeError
    | Some grad =>
        match Type_GradientForm grad with
        | None => raise AttributeError
        | Some ColorNoise =>
            image <- noise_color_map m grad Z0 ;; ret (Some image)
        | Some CustomStops =>
            image <- stops_color_map m grad Z0 ;; ret (Some image)
        | Some (OtherForm _) =>
            logger ERROR "Unknown gradient form" ;;; ret None
        end
    end.

(** [draw_gradient_fill(mode, size, setting)] *)
Definition draw_gradient_fill (env : environment) (m : string) (sz : Z * Z)
  (setting : descriptor) : M (option image) :=
  if negb (numpy_available env) then
    logger ERROR "Gradient fill requires numpy and scipy." ;;; ret None
  else
    let angle := get (Key_Angle setting) 0%Q in
    XY <- coordinate_fields sz setting ;;
    let (X, Y) := XY in
    match Key_Type setting with
    | None => raise AttributeError
    | Some gradient_kind =>
        Z0 <- match gradient_kind with
              | Linear => ret (_make_linear_gradient X Y angle)
              | Radial => ret (_make_radial_gradient X Y)
              | Angle => ret (_make_angle_gradient X Y angle)
              | Reflected => ret (_make_reflected_gradient X Y angle)
              | Diamond => ret (_make_diamond_gradient X Y angle)
              | OtherKind _ =>
                  logger WARNING "Unknown gradient style" ;;;
                  ret (repeat (repeat (1 # 2)%Q (Z.to_nat (fst sz))) (Z.to_nat (snd sz)))
              end ;;
        let Z0 := field_map (fun z => Qmax 0 (Qmin 1 z)) Z0 in
        let Z0 := if get (Key_Reverse setting) false
                  then field_map (fun z => (1 - z)%Q) Z0 else Z0 in
        gradient_image <- _apply_color_map env m (Key_Gradient setting) Z0 ;;
        gradient_image <- _apply_opacity gradient_image setting ;;
        ret gradient_image
    end.

End Gradient.

(** ** The statements of the specification, as definitions *)

(** The compositor as the specification words it: planes of values, the
    inversion decided by the position of the sub-path in the mask. *)
Module MaskSpec.

Definition invert_if (b : bool) (acc : plane) : plane :=
  if b then map (fun a => 255 - a) acc else acc.

Definition combine_op (very_first : bool) (op : Z) (acc pl : plane) : plane :=
  if op =? 0 then zip_with (fun a p => Z.abs (a - p)) acc pl
  else if op =? 1 then zip_with Z.max acc pl
  else if op =? 2 then
    zip_with (fun a p => Z.max 0 (a - p)) (invert_if very_first acc) pl
  else if op =? 3 then zip_with Z.min (invert_if very_first acc) pl
  else acc.

Fixpoint compose_from (i : nat) (acc : plane) (subs : list (Z * plane)) : plane :=
  match subs with
  | [] => acc
  | (op, pl) :: r => compose_from (S i) (combine_op (Nat.eqb i 0) op acc pl) r
  end.

Definition compose (n : nat) (fill : Z) (subs : list (Z * plane)) : plane :=
  compose_from 0 (repeat (255 * fill) n) subs.

(** The same on sets that are the whole canvas ([true]) or empty. *)
Definition set_op (very_first : bool) (op : Z) (acc s : bool) : bool :=
  if op =? 0 then xorb acc s
  else if op =? 1 then acc || s
  else if op =? 2 then (if very_first then negb acc else acc) && negb s
  else if op =? 3 then (if very_first then negb acc else acc) && s
  else acc.

Fixpoint set_compose_from (i : nat) (acc : bool) (subs : list (Z * bool)) : bool :=
  match subs with
  | [] => acc
  | (op, s) :: r => set_compose_from (S i) (set_op (Nat.eqb i 0) op acc s) r
  end.

Definition set_compose (fill : bool) (subs : list (Z * bool)) : bool :=
  set_compose_from 0 fill subs.

End MaskSpec.

(** The contour as the specification words it: a control point [c] is
    emitted as the pair (horizontal, vertical) =
    ([c[1]] x width, [c[0]] x height). *)
Module SymbolSpec.

Definition point (width height : Z) (c : Q * Q) : list token :=
  [Num (snd c * inject_Z width)%Q; Num (fst c * inject_Z height)%Q].

(** One cubic segment from knot [p1] to knot [p2]. *)
Definition segment (width height : Z) (p : knot * knot) : list token :=
  point width height (leaving (fst p))
  ++ point width height (preceding (snd p))
  ++ point width height (anchor (snd p)).

End SymbolSpec.

(** Duplicate-location collapse as the specification words it: of the
    stops that share a location only the last one is kept. *)
Fixpoint keep_last {V} (stops : list (Z * V)) : list (Z * V) :=
  match stops with
  | [] => []
  | s :: r =>
      if existsb (fun t => fst t =? fst s) r then keep_last r else s :: keep_last r
  end.

Definition keep_last_color (stops : list color_stop) : list color_stop :=
  map (fun s => mkColorStop (fst s) (snd s))
      (keep_last (map (fun s => (cs_Location s, cs_Color s)) stops)).

(** ** Data read off the model *)

Definition canvas_pixels (l : layer) : nat := Z.to_nat (psd_width l * psd_height l).

(** The plane [_draw_subpath] paints for a sub-path. *)
Definition subpath_plane {R : Rasterizer} (sp : subpath) (width height : Z) : plane :=
  hd [] (bands (draw_symbol
                  (mkImage "L" (width, height) [repeat 0 (Z.to_nat (width * height))])
                  (_generate_symbol sp width height "C"))).

Definition subpath_planes {R : Rasterizer} (l : layer) : list (Z * plane) :=
  map (fun sp => (operation sp, subpath_plane sp (psd_width l) (psd_height l)))
      (paths (layer_vector_mask l)).

Definition is_nil {A} (l : list A) : bool :=
  match l with
  | [] => true
  | _ => false
  end.

(** The value of band [k] of an image at column [x], row [y]. *)
Definition pixel (im : image) (k : nat) (x y : Z) : Z :=
  getpixel (width im) (nth k (bands im) []) x y.

Definition in_canvas (l : layer) (x y : Z) : bool :=
  (0 <=? x) && (x <? psd_width l) && (0 <=? y) && (y <? psd_height l).

(** ** What the statements below speak of *)

(** The scale factor [float(setting.get(Key.Scale, 100.)) / 100.] and the
    ratio [angle % 90]. *)
Definition scale_factor (setting : descriptor) : Q :=
  (get (Key_Scale setting) (inject_Z 100) / inject_Z 100)%Q.

Definition angle_ratio (setting : descriptor) : Q :=
  py_fmod (get (Key_Angle setting) 0%Q) (inject_Z 90).

(** [xs] are [n] samples that span [a, b] linearly. *)
Definition spans (xs : list Q) (a b : Q) (n : Z) : Prop :=
  List.length xs = Z.to_nat n
  /\ (forall i, (i < Z.to_nat n)%nat ->
        (nth i xs 0 == a + inject_Z (Z.of_nat i) * ((b - a) / inject_Z (n - 1)))%Q)
  /\ (nth 0 xs 0 == a)%Q
  /\ (2 <= n -> (nth (Z.to_nat (n - 1)) xs 0 == b)%Q).

(** The normalised location of a stop. *)
Definition location_of {V} (s : Z * V) : Q := (inject_Z (fst s) / inject_Z 4096)%Q.

(** The stops the loop keeps, by recursion on the list: a stop followed by
    one at the same location is dropped. *)
Fixpoint collapse_adjacent {V} (stops : list (Z * V)) : list (Z * V) :=
  match stops with
  | [] => []
  | s :: r =>
      match r with
      | [] => [s]
      | t :: _ => if fst s =? fst t then collapse_adjacent r else s :: collapse_adjacent r
      end
  end.

(** The kept stops after one more stop. *)
Definition keep_stop {V} (K : list (Z * V)) (s : Z * V) : list (Z * V) :=
  match K with
  | [] => [s]
  | k0 :: _ => if fst (last K k0) =? fst s then removelast K ++ [s] else K ++ [s]
  end.

(** The pair [(location, color)] the loop reads off a colour stop. *)
Definition scaled_stop (scalar : Q) (stop : color_stop) : Z * list Q :=
  (cs_Location stop, map (Qmult scalar) (cs_Color stop)).

(** The gradient [grad] with its colour stops replaced. *)
Definition with_colors (grad : gradient) (stops : list color_stop) : gradient :=
  mkGradient (Type_GradientForm grad) (Some stops) (Key_Transparency grad)
    (Key_Smoothness grad) (Key_Maximum grad) (Key_Minimum grad) (Key_RandomSeed grad).

(** The log records of the dispatch on the gradient kind. *)
Definition kind_logs (kind : gradient_kind) : list log_record :=
  match kind with
  | OtherKind _ => [(WARNING, "Unknown gradient style")]
  | _ => []
  end.





(** The reading of the mask of a layer without sub-paths as uniform:
    every pixel of the returned buffer is 255 x initialFillRule. *)
Definition empty_mask_is_uniform : Prop :=
  forall (R : Rasterizer) (l : layer) (im : image),
    paths (layer_vector_mask l) = [] ->
    draw_vector_mask l = ret im ->
    forall x y, 0 <= x < width im -> 0 <= y < height im ->
      pixel im 0 x y = 255 * initial_fill_rule (layer_vector_mask l).

(** ** Backends to run the model on examples *)

(** A path filler that covers the whole canvas for any non-empty path. *)
Definition cover_symbol (im : image) (t : list token) : image :=
  match t with
  | [] => im
  | _ => mkImage (mode im) (size im) (map (map (fun _ => 255)) (bands im))
  end.

(** Nearest-neighbour resampling; colour conversion keeps three bands; an
    array that does not fit its mode is refused. *)
Definition nearest_bands (im : image) (sz : Z * Z) : list plane :=
  map (fun p => mk_plane (fst sz) (snd sz) (fun x y =>
         getpixel (width im) p (x * width im / fst sz) (y * height im / snd sz)))
      (bands im).

#[local] Instance nearest_imaging : Imaging := {|
  convert_colour := fun _ _ b => firstn 3 b;
  resize_bands := nearest_bands;
  fromarray_raw := fun _ _ _ => raise ValueError
|}.

(** Piecewise-linear interpolation over sorted [X], clamped at both ends. *)
Fixpoint linear_interp (X : list Q) (Y : list (list Q)) (z : Q) : list Q :=
  match X, Y with
  | x0 :: ((x1 :: _) as X'), y0 :: ((y1 :: _) as Y') =>
      if Qle_bool z x0 then y0
      else if Qle_bool z x1
           then zip_with (fun a b => (a + (b - a) * ((z - x0) / (x1 - x0)))%Q) y0 y1
           else linear_interp X' Y' z
  | _, y0 :: _ => y0
  | _, [] => []
  end.

(** Rational stand-ins for the transcendental routines: enough to run the
    control flow of the model. *)
#[local] Instance rational_numeric : Numeric := {|
  np_float_alias := true;
  np_cos := fun t => (1 - t * t / inject_Z 2)%Q;
  np_sin := fun t => t;
  np_sqrt := fun x => x;
  np_arctan2 := fun y x => 0%Q;
  np_pi := (355 # 113)%Q;
  interp1d := linear_interp;
  rng_binomial := fun seed rows cols => repeat (repeat 0%Q cols) rows;
  maximum_filter1d := fun G _ => G;
  uniform_filter1d := fun G _ => G
|}.

(** The path filler meets the interface. *)
#[local] Instance cover_rasterizer : Rasterizer.
Proof.
  refine (Build_Rasterizer cover_symbol _ _ _ _).
  - intros im [|t0 t]; reflexivity.
  - intros im [|t0 t]; reflexivity.
  - intros im [|t0 t]; cbn [cover_symbol bands].
    + induction (bands im); constructor; auto.
    + induction (bands im) as [|p b IH]; cbn [map]; constructor; auto.
      split; [apply length_map|]. intros _. unfold eight_bit. clear.
      induction p; cbn [map]; constructor; auto; lia.
  - reflexivity.
Defined.

(** ** Inputs to run the model on *)

(** A closed triangle with straight edges. *)
Definition triangle (op : Z) : subpath :=
  mkSubpath
    [mkKnot (0, 0)%Q (0, 0)%Q (0, 0)%Q;
     mkKnot (0, 1)%Q (0, 1)%Q (0, 1)%Q;
     mkKnot (1, 1)%Q (1, 1)%Q (1, 1)%Q]
    true op.

(** A layer to run the compositor on: a 2 x 1 canvas that starts full, the
    triangle subtracted, an empty path united, the triangle excluded. *)
Definition demo_layer : layer :=
  mkLayer 2 1
    (mkVectorMask 1 [triangle 2; mkSubpath [] true 1; triangle 0])
    (0, 0, 2, 1).

(** A layer whose box leaves a 1 x 1 canvas on the right. *)
Definition overhanging_layer : layer :=
  mkLayer 1 1 (mkVectorMask 1 []) (0, 0, 2, 1).

(** The setting that only carries an opacity. *)
Definition opacity_setting (p : Z) : descriptor :=
  mkDescriptor (Some (inject_Z p)) None None None None None None.

(** The stops of the specification's example: A at 0, B and C at 0.5, D at
    1; and the same without B. *)
Definition stops_ABCD : list color_stop :=
  [mkColorStop 0 [0; 0; 0]%Q;
   mkColorStop 2048 [inject_Z 10; inject_Z 20; inject_Z 30];
   mkColorStop 2048 [inject_Z 200; inject_Z 100; inject_Z 50];
   mkColorStop 4096 [inject_Z 255; inject_Z 255; inject_Z 255]].

Definition stops_ACD : list color_stop :=
  [mkColorStop 0 [0; 0; 0]%Q;
   mkColorStop 2048 [inject_Z 200; inject_Z 100; inject_Z 50];
   mkColorStop 4096 [inject_Z 255; inject_Z 255; inject_Z 255]].

Definition custom_gradient (stops : list color_stop) : gradient :=
  mkGradient (Some CustomStops) (Some stops) None None None None None.

Definition full_environment : environment := mkEnvironment true true.

(** A grey ramp of one stop at 50 percent. *)
Definition grey_50 : gradient := custom_gradient [mkColorStop 0 [inject_Z 50]].

(** A linear gradient fill whose gradient has a form that is neither noise
    nor custom stops, at the given opacity. *)
Definition unknown_form_setting (p : Z) : descriptor :=
  mkDescriptor (Some (inject_Z p)) None None (Some Linear) None
    (Some (mkGradient (Some (OtherForm "????")) None None None None None None))
    None.

(** A linear gradient fill from A to D through B, C. *)
Definition linear_setting : descriptor :=
  mkDescriptor None None None (Some Linear) None
    (Some (custom_gradient stops_ABCD)) None.

(** A linear gradient fill at angle -45 and scale 50 percent. *)
Definition slanted_setting : descriptor :=
  mkDescriptor None (Some (inject_Z 50)) (Some (- (45))%Q) (Some Linear) None
    (Some (custom_gradient stops_ABCD)) None.

(** A document with one 2 x 1 grayscale pattern, and a fill that scales it
    to 50 percent. *)
Definition one_pattern : psd_image :=
  fun _ => Some (mkImage "L" (2, 1) [[7; 9]]).

Definition half_scale_setting : descriptor :=
  mkDescriptor None (Some (inject_Z 50)) None None None None (Some "pat").





(** ** Solid colour fill *)

(** The setting of a solid colour fill: the channel values of [Key.Color]
    beside the keys of a fill setting. *)
Record solid_setting : Type := mkSolidSetting {
  Key_Color : option (list Q);
  fill_keys : descriptor
}.

(** The ink [ImageDraw] makes of a colour tuple where it depends on the
    version of PIL: an image of one or two bands, a tuple that has not
    three or four elements, or a value that is not a C [int]. *)
Class Drawing : Type := {
  other_ink : nat -> list Z -> M (list Z)
}.

Section SolidFill.

Context {I : Imaging} {D : Drawing}.

(** The ink of a colour tuple on an image of [nbands] bands: on three bands
    or more, a tuple of three or four values that are C [int]s is
    saturated value by value, the fourth defaulting to 255. *)
Definition draw_ink (nbands : nat) (color : list Z) : M (list Z) :=
  if (3 <=? nbands)%nat && forallb c_int color then
    match color with
    | [r; g; b] => ret (firstn nbands (map clip8 [r; g; b; 255]))
    | [r; g; b; a] => ret (firstn nbands (map clip8 [r; g; b; a]))
    | _ => other_ink nbands color
    end
  else other_ink nbands color.

(** [draw.rectangle((0, 0, canvas.width, canvas.height), fill=color)]: the
    rectangle covers the canvas. *)
Definition fill_canvas (canvas : image) (color : list Z) : M image :=
  ink <- draw_ink (List.length (bands canvas)) color ;;
  ret (mkImage (mode canvas) (size canvas)
         (map (fun v => repeat v (Z.to_nat (width canvas * height canvas))) ink)).

(** [draw_solid_color_fill(mode, size, setting)] *)
Definition draw_solid_color_fill (m : string) (sz : Z * Z) (setting : solid_setting)
  : M (option image) :=
  match Key_Color setting with
  | None => raise AttributeError
  | Some values =>
      let color := map py_int values in
      canvas <- Image_new m sz 0 ;;
      canvas <- fill_canvas canvas color ;;
      _apply_opacity (Some canvas) (fill_keys setting)
  end.

End SolidFill.

(** ** The index field of a gradient fill *)

Section IndexField.

Context {N : Numeric}.

(** [draw_gradient_fill] from the coordinate fields to the clamped and
    reversed [Z], the part between the import and the colour map. *)
Definition index_field (sz : Z * Z) (setting : descriptor) : M field :=
  let angle := get (Key_Angle setting) 0%Q in
  XY <- coordinate_fields sz setting ;;
  let (X, Y) := XY in
  match Key_Type setting with
  | None => raise AttributeError
  | Some gradient_kind =>
      Z0 <- match gradient_kind with
            | Linear => ret (_make_linear_gradient X Y angle)
            | Radial => ret (_make_radial_gradient X Y)
            | Angle => ret (_make_angle_gradient X Y angle)
            | Reflected => ret (_make_reflected_gradient X Y angle)
            | Diamond => ret (_make_diamond_gradient X Y angle)
            | OtherKind _ =>
                logger WARNING "Unknown gradient style" ;;;
                ret (repeat (repeat (1 # 2)%Q (Z.to_nat (fst sz))) (Z.to_nat (snd sz)))
            end ;;
      let Z0 := field_map (fun z => Qmax 0 (Qmin 1 z)) Z0 in
      let Z0 := if get (Key_Reverse setting) false
                then field_map (fun z => (1 - z)%Q) Z0 else Z0 in
      ret Z0
  end.

End IndexField.

(** ** More of what the statements speak of *)

(** A plane of full and empty pixels only. *)
Definition bilevel (p : plane) : Prop := Forall (fun v => v = 0 \/ v = 255) p.

(** A field of [h] rows of [w] values. *)
Definition field_shape (w h : nat) (F : field) : Prop :=
  List.length F = h /\ Forall (fun row => List.length row = w) F.

(** A field of [h] rows of [w] values between 0 and 1. *)
Definition unit_field (w h : nat) (Z0 : field) : Prop :=
  List.length Z0 = h
  /\ Forall (fun row => List.length row = w /\ Forall (fun z => 0 <= z <= 1)%Q row) Z0.

(** [k] NUL characters. *)
Fixpoint nuls (k : nat) : string :=
  match k with
  | O => EmptyString
  | S k => String zero (nuls k)
  end.

(** The segments of a path of [n] knots. *)
Definition segment_count (closed : bool) (n : nat) : nat :=
  if closed then n else (n - 1)%nat.

(** The modes the composer asks fills in. *)
Definition fill_modes : list string := ["RGB"; "RGBA"; "L"; "LA"; "CMYK"].

(** ** More inputs to run the model on *)

(** A version of PIL that refuses what [draw_ink] leaves to it. *)
#[local] Instance strict_drawing : Drawing := {|
  other_ink := fun _ _ => raise TypeError
|}.

(** A layer whose box has its right edge left of its left edge. *)
Definition inverted_layer : layer :=
  mkLayer 2 1 (mkVectorMask 1 [triangle 1]) (2, 0, 0, 1).

(** An empty canvas, a first sub-path of operation -1, then the triangle
    intersected. *)
Definition merged_layer : layer :=
  mkLayer 2 1
    (mkVectorMask 0 [mkSubpath [] true (-1); triangle 3])
    (0, 0, 2, 1).

(** The triangle excluded twice from a full canvas. *)
Definition twice_excluded_layer : layer :=
  mkLayer 2 1 (mkVectorMask 1 [triangle 0; triangle 0]) (0, 0, 2, 1).

(** A half-transparent grey on white, and a fill at 50 percent opacity. *)
Definition translucent_image : image :=
  mkImage "LA" (2, 1) [[200; 100]; [255; 101]].

(** A linear gradient fill at scale 0. *)
Definition zero_scale_setting : descriptor :=
  mkDescriptor None (Some 0%Q) None (Some Linear) None
    (Some (custom_gradient stops_ABCD)) None.

(** A gradient fill of a kind that is not one of the five. *)
Definition unknown_kind_setting : descriptor :=
  mkDescriptor None None (Some (inject_Z 30)) (Some (OtherKind "????")) (Some true)
    (Some (custom_gradient stops_ABCD)) None.

(** A gradient fill without [Key.Type]. *)
Definition untyped_setting : descriptor :=
  mkDescriptor None None None None None (Some (custom_gradient stops_ABCD)) None.

(** Opaque red at 50 percent opacity. *)
Definition red_setting : solid_setting :=
  mkSolidSetting (Some [inject_Z 255; 0%Q; 0%Q]) (opacity_setting 50).

(** * Properties *)

(** ** The monad *)

Lemma bind_ret_l {A B} (a : A) (f : A -> M B) : bind (ret a) f = f a.
Proof. unfold bind, ret. destruct (f a); reflexivity. Qed.

Lemma bind_raise_l {A B} (e : exn) (f : A -> M B) : bind (raise e) f = raise e.
Proof. reflexivity. Qed.


(** ** Planes *)

Lemma clip8_id v : 0 <= v <= 255 -> clip8 v = v.
Proof. unfold clip8; lia. Qed.

Lemma clip8_range v : 0 <= clip8 v <= 255.
Proof. unfold clip8; lia. Qed.

Lemma zip_with_length {A B C} (f : A -> B -> C) l l' :
  List.length l = List.length l' -> List.length (zip_with f l l') = List.length l.
Proof.
  revert l'; induction l as [|a l IH]; intros [|b l'] H; simpl in *; try lia.
  rewrite IH; lia.
Qed.

Lemma zip_with_ext_Forall {A B C} (P : A -> Prop) (Q0 : B -> Prop)
  (f g : A -> B -> C) l l' :
  Forall P l -> Forall Q0 l' ->
  (forall a b, P a -> Q0 b -> f a b = g a b) ->
  zip_with f l l' = zip_with g l l'.
Proof.
  intros Hl; revert l'; induction Hl as [|a l Ha Hl IH]; intros l' Hl' Hfg.
  - reflexivity.
  - destruct Hl' as [|b l' Hb Hl']; simpl; [reflexivity|].
    rewrite (Hfg a b Ha Hb), (IH l' Hl' Hfg); reflexivity.
Qed.

Lemma zip_with_Forall {A B C} (P : A -> Prop) (Q0 : B -> Prop) (S0 : C -> Prop)
  (f : A -> B -> C) l l' :
  Forall P l -> Forall Q0 l' ->
  (forall a b, P a -> Q0 b -> S0 (f a b)) ->
  Forall S0 (zip_with f l l').
Proof.
  intros Hl; revert l'; induction Hl as [|a l Ha Hl IH]; intros l' Hl' Hf.
  - constructor.
  - destruct Hl' as [|b l' Hb Hl']; simpl; constructor; auto.
Qed.

Lemma zip_with_repeat {A B C} (f : A -> B -> C) a b n :
  zip_with f (repeat a n) (repeat b n) = repeat (f a b) n.
Proof. induction n; simpl; congruence. Qed.

Lemma map_repeat {A B} (f : A -> B) a n : map f (repeat a n) = repeat (f a) n.
Proof. induction n; simpl; congruence. Qed.

Lemma eight_bit_repeat v n : 0 <= v <= 255 -> eight_bit (repeat v n).
Proof. intros Hv; induction n; simpl; constructor; auto. Qed.

Lemma eight_bit_invert acc : eight_bit acc -> eight_bit (map (fun a => 255 - a) acc).
Proof.
  unfold eight_bit; intros H; induction H as [|a acc Ha _ IH]; cbn [map].
  - constructor.
  - constructor; [lia | exact IH].
Qed.

(** ** Vector mask compositor *)

Section VectorMaskFacts.

Context {R : Rasterizer}.

Lemma Image_new_L w h c :
  0 <= w -> 0 <= h ->
  Image_new "L" (w, h) c = ret (mkImage "L" (w, h) [repeat (clip8 c) (Z.to_nat (w * h))]).
Proof.
  intros Hw Hh. unfold Image_new.
  rewrite (proj2 (Z.ltb_ge w 0)), (proj2 (Z.ltb_ge h 0)) by lia.
  reflexivity.
Qed.

(** Painting on a one-band image gives a one-band image of the same
    layout. *)
Lemma draw_symbol_one_band im p t :
  bands im = [p] ->
  draw_symbol im t = mkImage (mode im) (size im) [hd [] (bands (draw_symbol im t))]
  /\ List.length (hd [] (bands (draw_symbol im t))) = List.length p
  /\ (eight_bit p -> eight_bit (hd [] (bands (draw_symbol im t)))).
Proof.
  intros Hb.
  pose proof (draw_symbol_mode im t) as Hm.
  pose proof (draw_symbol_size im t) as Hs.
  pose proof (draw_symbol_bands im t) as Hf.
  destruct (draw_symbol im t) as [m s b]; cbn [mode size bands] in *.
  rewrite Hb in Hf. inversion Hf as [|p0 q l l' [Hlen H8] Hrest]; subst.
  inversion Hrest; subst. cbn [hd]. auto.
Qed.

Lemma draw_subpath_run sp w h :
  0 <= w -> 0 <= h ->
  _draw_subpath sp w h = ret (mkImage "L" (w, h) [subpath_plane sp w h]).
Proof.
  intros Hw Hh. unfold _draw_subpath.
  rewrite Image_new_L, bind_ret_l by assumption.
  change (clip8 0) with 0.
  destruct (draw_symbol_one_band
              (mkImage "L" (w, h) [repeat 0 (Z.to_nat (w * h))])
              (repeat 0 (Z.to_nat (w * h)))
              (_generate_symbol sp w h "C") eq_refl) as [E _].
  rewrite E at 1. reflexivity.
Qed.

Lemma subpath_plane_length sp w h :
  List.length (subpath_plane sp w h) = Z.to_nat (w * h).
Proof.
  destruct (draw_symbol_one_band
              (mkImage "L" (w, h) [repeat 0 (Z.to_nat (w * h))])
              (repeat 0 (Z.to_nat (w * h)))
              (_generate_symbol sp w h "C") eq_refl) as (_ & L & _).
  unfold subpath_plane. rewrite L. apply repeat_length.
Qed.

Lemma subpath_plane_eight_bit sp w h : eight_bit (subpath_plane sp w h).
Proof.
  destruct (draw_symbol_one_band
              (mkImage "L" (w, h) [repeat 0 (Z.to_nat (w * h))])
              (repeat 0 (Z.to_nat (w * h)))
              (_generate_symbol sp w h "C") eq_refl) as (_ & _ & B).
  apply B, eight_bit_repeat; lia.
Qed.

Lemma combine_op_length vf op acc pl :
  List.length pl = List.length acc ->
  List.length (MaskSpec.combine_op vf op acc pl) = List.length acc.
Proof.
  intros L. unfold MaskSpec.combine_op, MaskSpec.invert_if.
  repeat match goal with |- context [if ?b then _ else _] => destruct b end;
    rewrite ?zip_with_length, ?length_map; rewrite ?length_map; auto.
Qed.

Lemma combine_op_eight_bit vf op acc pl :
  eight_bit acc -> eight_bit pl -> eight_bit (MaskSpec.combine_op vf op acc pl).
Proof.
  intros Ha Hp. pose proof (eight_bit_invert acc Ha) as Hi.
  unfold MaskSpec.combine_op, MaskSpec.invert_if.
  repeat match goal with |- context [if ?b then _ else _] => destruct b end;
    try assumption;
    (eapply zip_with_Forall; [eassumption | exact Hp | cbv beta; intros; lia]).
Qed.

(** One turn of the loop computes the operator of the specification. *)
Lemma combine_subpath_run w h acc first sp :
  0 <= w -> 0 <= h -> eight_bit acc ->
  combine_subpath w h (mkImage "L" (w, h) [acc], first) sp
  = ret (mkImage "L" (w, h)
           [MaskSpec.combine_op first (operation sp) acc (subpath_plane sp w h)],
         false).
Proof.
  intros Hw Hh Ha. unfold combine_subpath.
  rewrite draw_subpath_run, bind_ret_l by assumption.
  pose proof (subpath_plane_eight_bit sp w h) as Hp.
  pose proof (eight_bit_invert acc Ha) as Hi.
  unfold MaskSpec.combine_op, MaskSpec.invert_if.
  destruct (operation sp =? 0); [|destruct (operation sp =? 1);
    [|destruct (operation sp =? 2); [|destruct (operation sp =? 3)]]];
    try reflexivity; try destruct first;
    unfold difference, lighter, subtract, darker, invert, chop;
    cbn [mode size bands zip_with map];
    (erewrite (zip_with_ext_Forall (fun v => 0 <= v <= 255) (fun v => 0 <= v <= 255));
     [reflexivity | eassumption | exact Hp | cbv beta; intros; unfold clip8; lia]).
Qed.

Lemma accumulate_loop w h subs acc first i :
  0 <= w -> 0 <= h ->
  first = Nat.eqb i 0 ->
  List.length acc = Z.to_nat (w * h) -> eight_bit acc ->
  for_each (combine_subpath w h) subs (mkImage "L" (w, h) [acc], first)
  = ret (mkImage "L" (w, h)
           [MaskSpec.compose_from i acc
              (map (fun sp => (operation sp, subpath_plane sp w h)) subs)],
         first && is_nil subs).
Proof.
  intros Hw Hh. revert acc first i.
  induction subs as [|sp subs IH]; intros acc first i Hf Hl Ha; cbn [for_each map].
  - cbn [MaskSpec.compose_from is_nil]. rewrite andb_true_r. reflexivity.
  - rewrite combine_subpath_run, bind_ret_l by assumption.
    rewrite (IH _ false (S i)).
    + cbn [MaskSpec.compose_from is_nil]. rewrite andb_false_r. subst first. reflexivity.
    + reflexivity.
    + rewrite combine_op_length; [assumption|].
      rewrite subpath_plane_length; auto.
    + apply combine_op_eight_bit; [assumption | apply subpath_plane_eight_bit].
Qed.

(** On planes that cover everything or nothing the operator is the set
    operation. *)
Lemma combine_op_uniform vf op a s n :
  MaskSpec.combine_op vf op (repeat (255 * Z.b2z a) n) (repeat (255 * Z.b2z s) n)
  = repeat (255 * Z.b2z (MaskSpec.set_op vf op a s)) n.
Proof.
  unfold MaskSpec.combine_op, MaskSpec.set_op, MaskSpec.invert_if.
  repeat match goal with |- context [if ?b =? ?c then _ else _] => destruct (b =? c) end;
    try reflexivity;
    destruct vf; rewrite ?map_repeat, zip_with_repeat; f_equal; destruct a, s; reflexivity.
Qed.

Lemma compose_from_uniform n i a (ops : list Z) (sets : list bool) :
  List.length ops = List.length sets ->
  MaskSpec.compose_from i (repeat (255 * Z.b2z a) n)
    (combine ops (map (fun s => repeat (255 * Z.b2z s) n) sets))
  = repeat (255 * Z.b2z (MaskSpec.set_compose_from i a (combine ops sets))) n.
Proof.
  revert i a sets; induction ops as [|op ops IH]; intros i a [|s sets] L;
    cbn [combine map MaskSpec.compose_from MaskSpec.set_compose_from];
    try reflexivity; try discriminate.
  rewrite combine_op_uniform. apply IH. simpl in L; lia.
Qed.

End VectorMaskFacts.

(** ** Planes built by coordinates *)

Lemma zrange_length n : List.length (zrange n) = Z.to_nat n.
Proof. unfold zrange. rewrite length_map, length_seq. reflexivity. Qed.

Lemma zrange_nth n i d : (i < Z.to_nat n)%nat -> nth i (zrange n) d = Z.of_nat i.
Proof.
  intros Hi. unfold zrange.
  rewrite (nth_indep _ d (Z.of_nat 0)) by (rewrite length_map, length_seq; exact Hi).
  rewrite map_nth, seq_nth by exact Hi. reflexivity.
Qed.

Lemma zrange_map_nth (g : Z -> Z) n i d :
  (i < Z.to_nat n)%nat -> nth i (map g (zrange n)) d = g (Z.of_nat i).
Proof.
  intros Hi.
  rewrite (nth_indep _ d (g 0)) by (rewrite length_map, zrange_length; exact Hi).
  rewrite map_nth, zrange_nth by exact Hi. reflexivity.
Qed.

Lemma flat_map_rows_length {A B} (g : A -> list B) (c : nat) l :
  (forall a, List.length (g a) = c) ->
  List.length (flat_map g l) = (List.length l * c)%nat.
Proof.
  intros Hc. induction l as [|a l IH]; cbn [flat_map List.length].
  - reflexivity.
  - rewrite length_app, Hc, IH. reflexivity.
Qed.

Lemma flat_map_rows_nth {A B} (g : A -> list B) (c : nat) l i j d d0 :
  (forall a, List.length (g a) = c) ->
  (i < List.length l)%nat -> (j < c)%nat ->
  nth (i * c + j) (flat_map g l) d = nth j (g (nth i l d0)) d.
Proof.
  intros Hc. revert i. induction l as [|a l IH]; intros i Hi Hj; cbn [List.length] in Hi.
  - lia.
  - cbn [flat_map]. destruct i as [|i].
    + cbn [nth Nat.mul Nat.add]. apply app_nth1. rewrite Hc. exact Hj.
    + rewrite app_nth2 by (rewrite Hc; lia).
      rewrite Hc. replace (S i * c + j - c)%nat with (i * c + j)%nat by lia.
      cbn [nth]. apply IH; lia.
Qed.

Lemma mk_plane_length w h f :
  0 <= w -> 0 <= h -> List.length (mk_plane w h f) = Z.to_nat (w * h).
Proof.
  intros Hw Hh. unfold mk_plane.
  rewrite (flat_map_rows_length _ (Z.to_nat w)).
  - rewrite zrange_length. lia.
  - intros y. rewrite length_map. apply zrange_length.
Qed.

Lemma mk_plane_getpixel w h f x y :
  0 <= x < w -> 0 <= y < h -> getpixel w (mk_plane w h f) x y = f x y.
Proof.
  intros Hx Hy. unfold getpixel, mk_plane.
  replace (Z.to_nat (y * w + x)) with (Z.to_nat y * Z.to_nat w + Z.to_nat x)%nat by nia.
  rewrite (flat_map_rows_nth _ (Z.to_nat w) _ _ _ _ 0).
  - rewrite zrange_nth, zrange_map_nth by lia.
    rewrite !Z2Nat.id by lia. reflexivity.
  - intros a. rewrite length_map. apply zrange_length.
  - rewrite zrange_length. lia.
  - lia.
Qed.

Lemma getpixel_repeat w h v x y :
  0 <= x < w -> 0 <= y < h -> getpixel w (repeat v (Z.to_nat (w * h))) x y = v.
Proof.
  intros Hx Hy. unfold getpixel. apply nth_repeat_lt. nia.
Qed.

Lemma combine_fst_snd {A B} (l : list (A * B)) : combine (map fst l) (map snd l) = l.
Proof.
  induction l as [|[a b] l IH]; cbn [map combine fst snd]; congruence.
Qed.

Lemma accumulate_mask_run {R : Rasterizer} (l : layer) :
  0 <= psd_width l -> 0 <= psd_height l ->
  accumulate_mask l
  = ret (mkImage "L" (psd_width l, psd_height l)
           [MaskSpec.compose_from 0
              (repeat (clip8 (255 * initial_fill_rule (layer_vector_mask l)))
                      (canvas_pixels l))
              (subpath_planes l)],
         is_nil (paths (layer_vector_mask l))).
Proof.
  intros Hw Hh. unfold accumulate_mask.
  rewrite Image_new_L, bind_ret_l by assumption.
  rewrite (accumulate_loop _ _ _ _ true 0%nat); try assumption; try reflexivity.
  - apply repeat_length.
  - apply eight_bit_repeat, clip8_range.
Qed.

(** C2. The accumulator of [draw_vector_mask] starts uniformly at
    255 x initialFillRule and combines the sub-path planes in order:
    absolute difference for operator 0, maximum for 1, saturating
    subtraction for 2 and minimum for 3, the last two after inverting the
    accumulator exactly when the sub-path is the first of the mask; the
    [first] flag is cleared by any sub-path.  When every plane covers all or
    nothing, the result is the corresponding set algebra. *)
Theorem vector_mask_composition {R : Rasterizer} (l : layer) :
  0 <= psd_width l -> 0 <= psd_height l ->
  initial_fill_rule (layer_vector_mask l) = 0
  \/ initial_fill_rule (layer_vector_mask l) = 1 ->
  accumulate_mask l
  = ret (mkImage "L" (psd_width l, psd_height l)
           [MaskSpec.compose (canvas_pixels l)
              (initial_fill_rule (layer_vector_mask l)) (subpath_planes l)],
         is_nil (paths (layer_vector_mask l)))
  /\ draw_vector_mask l
     = crop (mkImage "L" (psd_width l, psd_height l)
               [MaskSpec.compose (canvas_pixels l)
                  (initial_fill_rule (layer_vector_mask l)) (subpath_planes l)])
            (bbox l)
  /\ forall sets : list bool,
       map snd (subpath_planes l)
       = map (fun s => repeat (255 * Z.b2z s) (canvas_pixels l)) sets ->
       MaskSpec.compose (canvas_pixels l)
         (initial_fill_rule (layer_vector_mask l)) (subpath_planes l)
       = repeat (255 * Z.b2z (MaskSpec.set_compose
                                (initial_fill_rule (layer_vector_mask l) =? 1)
                                (combine (map fst (subpath_planes l)) sets)))
                (canvas_pixels l).
Proof.
  intros Hw Hh Hfill.
  assert (Hc : clip8 (255 * initial_fill_rule (layer_vector_mask l))
               = 255 * initial_fill_rule (layer_vector_mask l))
    by (apply clip8_id; lia).
  pose proof (accumulate_mask_run l Hw Hh) as Hacc. rewrite Hc in Hacc.
  split; [exact Hacc | split].
  - unfold draw_vector_mask. rewrite Hacc, bind_ret_l. reflexivity.
  - intros sets Hsets. unfold MaskSpec.compose, MaskSpec.set_compose.
    rewrite <- (combine_fst_snd (subpath_planes l)) at 1. rewrite Hsets.
    replace (255 * initial_fill_rule (layer_vector_mask l))
      with (255 * Z.b2z (initial_fill_rule (layer_vector_mask l) =? 1))
      by (destruct Hfill as [-> | ->]; reflexivity).
    apply compose_from_uniform.
    apply (f_equal (@List.length _)) in Hsets.
    rewrite !length_map in *. exact Hsets.
Qed.

(** C2 on [demo_layer]: the full canvas is inverted and loses the triangle,
    gains nothing from the empty path, and the exclusion of the triangle
    fills it. *)
Lemma vector_mask_composition_witness :
  (0 <= psd_width demo_layer /\ 0 <= psd_height demo_layer)
  /\ accumulate_mask (R := cover_rasterizer) demo_layer
     = ret (mkImage "L" (2, 1) [[255; 255]], false).
Proof.
  assert (Hw : 0 <= psd_width demo_layer) by (cbn; lia).
  assert (Hh : 0 <= psd_height demo_layer) by (cbn; lia).
  split; [split; assumption|].
  destruct (vector_mask_composition (R := cover_rasterizer) demo_layer Hw Hh
              (or_intror eq_refl)) as (Hacc & _ & Hsets).
  rewrite Hacc, (Hsets [true; false; true] eq_refl). reflexivity.
Defined.

(** ** The buffer [draw_vector_mask] returns *)

(** C9, counterexample. The box of [overhanging_layer] is two pixels wide,
    the canvas one: the layer has no sub-path and its fill rule is 1, yet
    the second pixel of the returned buffer is 0, not 255. *)
Lemma empty_mask_outside_canvas :
  paths (layer_vector_mask overhanging_layer) = []
  /\ draw_vector_mask (R := cover_rasterizer) overhanging_layer
     = ret (mkImage "L" (2, 1) [[255; 0]])
  /\ pixel (mkImage "L" (2, 1) [[255; 0]]) 0 1 0
     <> 255 * initial_fill_rule (layer_vector_mask overhanging_layer).
Proof.
  split; [reflexivity | split; [reflexivity | discriminate]].
Qed.

(** Hence the uniform reading does not hold of the code. *)
Lemma empty_mask_not_uniform : ~ empty_mask_is_uniform.
Proof.
  intros H.
  specialize (H cover_rasterizer overhanging_layer
                (mkImage "L" (2, 1) [[255; 0]]) eq_refl eq_refl 1 0).
  cbn in H. assert (E : 0 = 255) by (apply H; lia). discriminate E.
Qed.

(** C9, amended. For a canvas of non-negative size and a box with
    left <= right and top <= bottom, [draw_vector_mask] returns a one-band
    buffer of mode L whose size is the size of the box, whatever the
    sub-paths and their operator codes.  Without sub-paths a pixel of the
    buffer is 255 x initialFillRule where the box lies on the canvas and 0
    where it lies outside. *)
Theorem vector_mask_buffer {R : Rasterizer} (l : layer) (x0 y0 x1 y1 : Z) :
  bbox l = (x0, y0, x1, y1) ->
  0 <= psd_width l -> 0 <= psd_height l -> x0 <= x1 -> y0 <= y1 ->
  exists p : plane,
    draw_vector_mask l = ret (mkImage "L" (x1 - x0, y1 - y0) [p])
    /\ List.length p = Z.to_nat ((x1 - x0) * (y1 - y0))
    /\ (paths (layer_vector_mask l) = [] ->
        initial_fill_rule (layer_vector_mask l) = 0
        \/ initial_fill_rule (layer_vector_mask l) = 1 ->
        forall x y, 0 <= x < x1 - x0 -> 0 <= y < y1 - y0 ->
          getpixel (x1 - x0) p x y
          = if in_canvas l (x0 + x) (y0 + y)
            then 255 * initial_fill_rule (layer_vector_mask l)
            else 0).
Proof.
  intros Hbox Hw Hh Hx Hy.
  unfold draw_vector_mask.
  rewrite (accumulate_mask_run l Hw Hh), bind_ret_l.
  cbn [fst]. rewrite Hbox. unfold crop.
  rewrite (proj2 (Z.ltb_ge x1 x0)), (proj2 (Z.ltb_ge y1 y0)) by lia.
  cbn [orb mode bands map width height size fst snd].
  eexists. split; [reflexivity | split].
  - apply mk_plane_length; lia.
  - intros Hnil Hfill x y Hxr Hyr.
    rewrite mk_plane_getpixel by assumption.
    unfold in_canvas, subpath_planes. rewrite Hnil. cbn [map MaskSpec.compose_from].
    destruct ((0 <=? x0 + x) && (x0 + x <? psd_width l)
              && (0 <=? y0 + y) && (y0 + y <? psd_height l)) eqn:Hin;
      [|reflexivity].
    apply andb_prop in Hin as [Hin H4]. apply andb_prop in Hin as [Hin H3].
    apply andb_prop in Hin as [H1 H2].
    unfold canvas_pixels. rewrite getpixel_repeat by lia.
    apply clip8_id. lia.
Qed.

(** C9, amended, on [demo_layer], whose box is the canvas. *)
Lemma vector_mask_buffer_witness :
  (0 <= psd_width demo_layer /\ 0 <= psd_height demo_layer /\ 0 <= 2 /\ 0 <= 1)
  /\ exists p : plane,
       draw_vector_mask (R := cover_rasterizer) demo_layer
       = ret (mkImage "L" (2, 1) [p]).
Proof.
  assert (Hw : 0 <= psd_width demo_layer) by (cbn; lia).
  assert (Hh : 0 <= psd_height demo_layer) by (cbn; lia).
  assert (Hx : 0 <= 2) by lia.
  assert (Hy : 0 <= 1) by lia.
  split; [repeat split; assumption|].
  destruct (vector_mask_buffer (R := cover_rasterizer) demo_layer 0 0 2 1
              eq_refl Hw Hh Hx Hy) as (p & Hrun & _).
  exists p. exact Hrun.
Defined.

(** ** Path rasterizer *)

Lemma last_cons_default {A} (a : A) l d d' : last (a :: l) d = last (a :: l) d'.
Proof.
  revert a; induction l as [|b l IH]; intros a.
  - reflexivity.
  - change (last (b :: l) d = last (b :: l) d'). apply IH.
Qed.

(** Zipping a path with its rotation ends with the pair (last, first). *)
Lemma combine_wrap {A} (p0 p : A) rest :
  exists init, combine (p0 :: rest) (rest ++ [p]) = init ++ [(last (p0 :: rest) p0, p)].
Proof.
  revert p0; induction rest as [|a rest IH]; intros p0.
  - exists []. reflexivity.
  - destruct (IH a) as [init E].
    exists ((p0, a) :: init).
    change (combine (p0 :: a :: rest) ((a :: rest) ++ [p]))
      with ((p0, a) :: combine (a :: rest) (rest ++ [p])).
    rewrite E.
    change (last (p0 :: a :: rest) p0) with (last (a :: rest) p0).
    rewrite (last_cons_default a rest p0 a). reflexivity.
Qed.

Lemma segment_tokens width height (points : list (knot * knot)) :
  flat_map (fun '(p1, p2) =>
     [Num (snd (leaving p1) * inject_Z width)%Q;
      Num (fst (leaving p1) * inject_Z height)%Q;
      Num (snd (preceding p2) * inject_Z width)%Q;
      Num (fst (preceding p2) * inject_Z height)%Q;
      Num (snd (anchor p2) * inject_Z width)%Q;
      Num (fst (anchor p2) * inject_Z height)%Q]) points
  = flat_map (SymbolSpec.segment width height) points.
Proof.
  apply flat_map_ext. intros [p1 p2]. reflexivity.
Qed.

(** C6. Every coordinate pair of the contour is (second component x width,
    first component x height) of an anchor or a handle: the start at the
    first anchor, then one segment per pair of consecutive knots made of the
    leaving handle, the preceding handle and the anchor reached.  A closed
    path ends with the segment from its last knot back to its first, then
    the closing command.  A sub-path without knots yields no symbol, and its
    mask is all zero, without error. *)
Theorem path_symbol_convention {R : Rasterizer} (width height : Z) :
  (forall p0 rest closed op,
     _generate_symbol (mkSubpath (p0 :: rest) closed op) width height "C"
     = [Cmd "M"] ++ SymbolSpec.point width height (anchor p0) ++ [Cmd "C"]
       ++ flat_map (SymbolSpec.segment width height)
            (combine (p0 :: rest) (if closed then rest ++ [p0] else rest))
       ++ (if closed then [Cmd "Z"] else []))
  /\ (forall p0 rest op, exists init,
        _generate_symbol (mkSubpath (p0 :: rest) true op) width height "C"
        = init ++ SymbolSpec.segment width height (last (p0 :: rest) p0, p0)
               ++ [Cmd "Z"])
  /\ (forall closed op,
        _generate_symbol (mkSubpath [] closed op) width height "C" = []
        /\ (0 <= width -> 0 <= height ->
            _draw_subpath (mkSubpath [] closed op) width height
            = ret (mkImage "L" (width, height)
                     [repeat 0 (Z.to_nat (width * height))]))).
Proof.
  assert (G : forall p0 rest closed op,
     _generate_symbol (mkSubpath (p0 :: rest) closed op) width height "C"
     = [Cmd "M"] ++ SymbolSpec.point width height (anchor p0) ++ [Cmd "C"]
       ++ flat_map (SymbolSpec.segment width height)
            (combine (p0 :: rest) (if closed then rest ++ [p0] else rest))
       ++ (if closed then [Cmd "Z"] else [])).
  { intros p0 rest closed op. unfold _generate_symbol.
    cbn [knots is_closed tl firstn]. rewrite segment_tokens.
    destruct closed; reflexivity. }
  split; [exact G | split].
  - intros p0 rest op. rewrite G.
    destruct (combine_wrap p0 p0 rest) as [init E]. rewrite E.
    rewrite flat_map_app. cbn [flat_map]. rewrite app_nil_r.
    exists ([Cmd "M"] ++ SymbolSpec.point width height (anchor p0) ++ [Cmd "C"]
            ++ flat_map (SymbolSpec.segment width height) init).
    rewrite <- !app_assoc. reflexivity.
  - intros closed op. split; [reflexivity|].
    intros Hw Hh. unfold _draw_subpath.
    rewrite Image_new_L, bind_ret_l by assumption.
    cbn [_generate_symbol knots]. rewrite draw_symbol_empty. reflexivity.
Qed.

(** C6 on the triangle, on a 2 x 1 canvas, and on a path without knots. *)
Lemma path_symbol_convention_witness :
  _generate_symbol (triangle 0) 2 1 "C"
  = [Cmd "M"; Num (0 * inject_Z 2)%Q; Num (0 * inject_Z 1)%Q; Cmd "C";
     Num (0 * inject_Z 2)%Q; Num (0 * inject_Z 1)%Q;
     Num (1 * inject_Z 2)%Q; Num (0 * inject_Z 1)%Q;
     Num (1 * inject_Z 2)%Q; Num (0 * inject_Z 1)%Q;
     Num (1 * inject_Z 2)%Q; Num (0 * inject_Z 1)%Q;
     Num (1 * inject_Z 2)%Q; Num (1 * inject_Z 1)%Q;
     Num (1 * inject_Z 2)%Q; Num (1 * inject_Z 1)%Q;
     Num (1 * inject_Z 2)%Q; Num (1 * inject_Z 1)%Q;
     Num (0 * inject_Z 2)%Q; Num (0 * inject_Z 1)%Q;
     Num (0 * inject_Z 2)%Q; Num (0 * inject_Z 1)%Q;
     Cmd "Z"]
  /\ _draw_subpath (R := cover_rasterizer) (mkSubpath [] true 1) 2 1
     = ret (mkImage "L" (2, 1) [[0; 0]]).
Proof.
  destruct (path_symbol_convention (R := cover_rasterizer) 2 1) as (G & _ & E).
  split.
  - unfold triangle. rewrite G. reflexivity.
  - destruct (E true 1) as [_ D]. rewrite D by lia. reflexivity.
Defined.

(** ** Opacity *)

Section OpacityFacts.

Context {I : Imaging}.

Lemma py_int_percent n : py_int (inject_Z n / inject_Z 100)%Q = Z.quot n 100.
Proof. unfold py_int. cbn. rewrite Z.mul_1_r. reflexivity. Qed.

Lemma has_alpha_mode_endswith m : has_alpha_mode m = true -> endswith m "A" = true.
Proof.
  unfold has_alpha_mode. intros H.
  apply orb_prop in H as [H | H]; [apply orb_prop in H as [H | H]|];
    apply String.eqb_eq in H; subst m; reflexivity.
Qed.

(** Opacity 100 leaves the buffer as it is, with or without alpha. *)
Lemma apply_opacity_noop img setting :
  opacity_of setting = 100 -> _apply_opacity img setting = ret img.
Proof. intros H. unfold _apply_opacity. rewrite H. reflexivity. Qed.

(** With an alpha channel, each alpha value [a] becomes [a * p / 100]
    (truncated, and saturated to 8 bits by the lookup table). *)
Lemma apply_opacity_scales_alpha (im : image) setting :
  has_alpha_mode (mode im) = true ->
  opacity_of setting <> 100 ->
  _apply_opacity (Some im) setting
  = ret (Some (set_alpha_band im
                 (map (fun a => clip8 (Z.quot (a * opacity_of setting) 100))
                      (alpha_band im)))).
Proof.
  intros Ha Hp. unfold _apply_opacity.
  rewrite (proj2 (Z.eqb_neq _ _) Hp). cbn [negb].
  rewrite (has_alpha_mode_endswith _ Ha).
  unfold getchannel_A. rewrite Ha, bind_ret_l.
  unfold putalpha_image, promote_alpha. rewrite Ha, bind_ret_l.
  cbn [point mode bands map hd]. cbn [String.eqb Ascii.eqb Bool.eqb orb].
  rewrite bind_ret_l. do 3 f_equal.
  apply map_ext. intros a. rewrite py_int_percent. reflexivity.
Qed.

(** Without one, on an RGB or L buffer, the alpha band is filled with
    [opacity * 255] saturated to 8 bits, when that product is a C [int]. *)
Lemma apply_opacity_synthesizes (im : image) setting :
  mode im = "RGB" \/ mode im = "L" ->
  opacity_of setting <> 100 ->
  _apply_opacity (Some im) setting
  = if c_int (opacity_of setting * 255)
    then ret (Some (mkImage (mode im ++ "A")%string (size im)
                      (bands im ++ [repeat (clip8 (opacity_of setting * 255))
                                           (Z.to_nat (width im * height im))])))
    else raise OverflowError.
Proof.
  intros Hm Hp. unfold _apply_opacity.
  rewrite (proj2 (Z.eqb_neq _ _) Hp). cbn [negb].
  unfold putalpha_const, promote_alpha, set_alpha_band.
  destruct Hm as [-> | ->]; cbn [endswith Ascii.eqb Bool.eqb];
    cbn [has_alpha_mode String.eqb Ascii.eqb Bool.eqb orb getmodebase dict_get];
    rewrite !bind_ret_l; destruct (c_int (opacity_of setting * 255));
    try reflexivity;
    rewrite bind_ret_l; cbn [mode size bands]; rewrite removelast_last; reflexivity.
Qed.

Lemma synthesized_alpha_value p :
  clip8 (p * 255) = if 1 <=? p then 255 else 0.
Proof. unfold clip8. destruct (Z.leb_spec 1 p); lia. Qed.

End OpacityFacts.

(** C1, at opacity 50 on an opaque RGB buffer. The synthesized alpha is
    [opacity * 255] saturated, 255 on every pixel, where the specification
    asks for round(50 x 2.55) = 128 (+/- 1). *)
Theorem opacity_50_on_opaque_rgb {I : Imaging} :
  _apply_opacity (Some (mkImage "RGB" (2, 1) [[10; 11]; [20; 21]; [30; 31]]))
                 (opacity_setting 50)
  = ret (Some (mkImage "RGBA" (2, 1) [[10; 11]; [20; 21]; [30; 31]; [255; 255]]))
  /\ ~ (128 - 1 <= 255 <= 128 + 1).
Proof.
  split.
  - rewrite apply_opacity_synthesizes; [reflexivity | left; reflexivity | discriminate].
  - lia.
Qed.

(** ** Colour stops *)

Lemma collapse_adjacent_cons {V} (s t : Z * V) r :
  collapse_adjacent (s :: t :: r)
  = if fst s =? fst t then collapse_adjacent (t :: r) else s :: collapse_adjacent (t :: r).
Proof. reflexivity. Qed.

Lemma location_eqb {V} (a b : Z * V) :
  Qeq_bool (location_of a) (location_of b) = (fst a =? fst b).
Proof.
  unfold location_of, Qeq_bool. cbn.
  rewrite !Z.mul_1_r.
  destruct (Z.eqb_spec (fst a) (fst b)) as [E | E].
  - rewrite E. apply Z.eqb_refl.
  - apply Z.eqb_neq. lia.
Qed.

Lemma last_map {A B} (f : A -> B) l d : last (map f l) (f d) = f (last l d).
Proof.
  induction l as [|a l IH]; [reflexivity|].
  destruct l as [|b l]; [reflexivity|]. exact IH.
Qed.

Lemma removelast_map {A B} (f : A -> B) l : removelast (map f l) = map f (removelast l).
Proof.
  induction l as [|a l IH]; [reflexivity|].
  destruct l as [|b l]; [reflexivity|].
  cbn [map removelast] in *. rewrite IH. reflexivity.
Qed.

Lemma last_default {A} (l : list A) d d' : l <> [] -> last l d = last l d'.
Proof. destruct l; [congruence | intros _; apply last_cons_default]. Qed.

(** One turn of the loop keeps the lists [X], [Y] in step with the kept
    stops. *)
Lemma collect_stop_result {V} (K : list (Z * V)) (s : Z * V) :
  result (collect_stop (map location_of K, map snd K) s)
  = Return (map location_of (keep_stop K s), map snd (keep_stop K s)).
Proof.
  unfold collect_stop, keep_stop. fold (location_of s).
  destruct K as [|k0 K']; [reflexivity|].
  set (K := k0 :: K').
  assert (HK : K <> []) by discriminate.
  rewrite length_map.
  replace (negb (Nat.eqb (List.length K) 0)) with true by reflexivity.
  cbn [andb].
  rewrite (last_default (map location_of K) 0%Q (location_of k0))
    by (subst K; discriminate).
  rewrite last_map, location_eqb.
  destruct (fst (last K k0) =? fst s).
  - unfold bind, logger, ret, result. cbn [fst].
    rewrite !removelast_map, !map_app. reflexivity.
  - unfold ret, result. cbn [fst]. rewrite !map_app. reflexivity.
Qed.

Lemma result_bind {A B} (m m' : M A) (f f' : A -> M B) :
  result m = result m' ->
  (forall a, result (f a) = result (f' a)) ->
  result (bind m f) = result (bind m' f').
Proof.
  unfold result, bind. destruct m as [[a|e] l], m' as [[a'|e'] l']; cbn [fst];
    intros E Hf; inversion E; subst; try reflexivity.
  specialize (Hf a'). destruct (f a'), (f' a'). exact Hf.
Qed.

Lemma result_bind_return {A B} (m : M A) (f : A -> M B) a :
  result m = Return a -> result (bind m f) = result (f a).
Proof.
  unfold result, bind. destruct m as [[a0|e] l]; cbn [fst]; intros E; inversion E; subst.
  destruct (f a); reflexivity.
Qed.

Lemma collect_loop_result {V} (stops K : list (Z * V)) :
  result (for_each collect_stop stops (map location_of K, map snd K))
  = Return (map location_of (fold_left keep_stop stops K),
            map snd (fold_left keep_stop stops K)).
Proof.
  revert K; induction stops as [|s stops IH]; intros K; cbn [for_each fold_left].
  - reflexivity.
  - rewrite (result_bind_return _ _ _ (collect_stop_result K s)). apply IH.
Qed.

Lemma keep_stop_fold {V} (r K0 : list (Z * V)) (k : Z * V) :
  fold_left keep_stop r (K0 ++ [k]) = K0 ++ collapse_adjacent (k :: r).
Proof.
  revert K0 k; induction r as [|s r IH]; intros K0 k.
  - reflexivity.
  - cbn [fold_left]. unfold keep_stop at 2.
    destruct (K0 ++ [k]) as [|k0 K'] eqn:EK; [destruct K0; discriminate|].
    rewrite <- EK. rewrite (last_default _ k0 k) by (destruct K0; discriminate).
    rewrite last_last, removelast_last, collapse_adjacent_cons.
    destruct (fst k =? fst s).
    + apply IH.
    + rewrite IH, <- app_assoc. reflexivity.
Qed.

Lemma keep_stop_collapse {V} (stops : list (Z * V)) :
  fold_left keep_stop stops [] = collapse_adjacent stops.
Proof.
  destruct stops as [|s r]; [reflexivity|].
  cbn [fold_left keep_stop]. apply (keep_stop_fold r [] s).
Qed.

Lemma collapse_adjacent_head {V} (s : Z * V) r :
  exists s' r', collapse_adjacent (s :: r) = s' :: r' /\ fst s' = fst s.
Proof.
  revert s; induction r as [|t r IH]; intros s.
  - exists s, []. split; reflexivity.
  - rewrite collapse_adjacent_cons.
    destruct (Z.eqb_spec (fst s) (fst t)) as [E | E].
    + destruct (IH t) as (s' & r' & E1 & E2).
      exists s', r'. split; [exact E1 | congruence].
    + exists s, (collapse_adjacent (t :: r)). split; reflexivity.
Qed.

Lemma collapse_adjacent_idem {V} (stops : list (Z * V)) :
  collapse_adjacent (collapse_adjacent stops) = collapse_adjacent stops.
Proof.
  induction stops as [|s r IH]; [reflexivity|].
  destruct r as [|t r]; [reflexivity|].
  rewrite collapse_adjacent_cons.
  destruct (Z.eqb_spec (fst s) (fst t)) as [E | E]; [exact IH|].
  destruct (collapse_adjacent_head t r) as (t' & r' & E1 & E2).
  rewrite E1 in *. rewrite collapse_adjacent_cons.
  rewrite E2, (proj2 (Z.eqb_neq _ _) E).
  f_equal. exact IH.
Qed.

(** On a list sorted by location, the last stop of a location is the one
    that no equal neighbour follows. *)
Lemma keep_last_sorted {V} (stops : list (Z * V)) :
  Sorted Z.le (map fst stops) -> keep_last stops = collapse_adjacent stops.
Proof.
  intros HS. apply Sorted_StronglySorted in HS; [|intros x y z; apply Z.le_trans].
  induction stops as [|s r IH]; [reflexivity|].
  cbn [map] in HS. apply StronglySorted_inv in HS as [HS Hall].
  specialize (IH HS).
  destruct r as [|t r]; [reflexivity|].
  rewrite collapse_adjacent_cons.
  cbn [keep_last] in *. cbn [existsb]. rewrite IH.
  destruct (Z.eqb_spec (fst s) (fst t)) as [E | E].
  - rewrite E, Z.eqb_refl. reflexivity.
  - rewrite (proj2 (Z.eqb_neq (fst t) (fst s))) by congruence. cbn [orb].
    replace (existsb (fun t0 => fst t0 =? fst s) r) with false; [reflexivity|].
    symmetry. apply not_true_is_false. intros Hex.
    apply existsb_exists in Hex as (u & Hu & Eu). apply Z.eqb_eq in Eu.
    cbn [map] in HS, Hall.
    apply StronglySorted_inv in HS as [_ Htu].
    rewrite Forall_forall in Htu.
    specialize (Htu (fst u) (in_map fst _ _ Hu)).
    apply Forall_inv in Hall. lia.
Qed.

Lemma existsb_map_comp {A B} (f : B -> bool) (g : A -> B) l :
  existsb f (map g l) = existsb (fun a => f (g a)) l.
Proof. induction l as [|a l IH]; cbn [map existsb]; congruence. Qed.

Lemma keep_last_map {V W} (h : V -> W) (stops : list (Z * V)) :
  keep_last (map (fun s => (fst s, h (snd s))) stops)
  = map (fun s => (fst s, h (snd s))) (keep_last stops).
Proof.
  induction stops as [|s r IH]; [reflexivity|].
  cbn [map keep_last fst]. rewrite existsb_map_comp. cbn [fst].
  rewrite IH. destruct (existsb _ r); reflexivity.
Qed.

(** The loop keeps the stops that no stop at the same location follows
    immediately. *)
Lemma collect_loop_collapses {V} (stops : list (Z * V)) :
  result (for_each collect_stop stops ([], []))
  = Return (map location_of (collapse_adjacent stops),
            map snd (collapse_adjacent stops)).
Proof.
  rewrite <- keep_stop_collapse. exact (collect_loop_result stops []).
Qed.

(** Collecting a sorted list of stops gives what collecting the list with
    only the last stop of each location gives. *)
Lemma collect_stops_keep_last {V} (stops : list (Z * V)) :
  Sorted Z.le (map fst stops) ->
  result (collect_stops (keep_last stops)) = result (collect_stops stops).
Proof.
  intros HS. unfold collect_stops.
  apply result_bind; [|reflexivity].
  rewrite !collect_loop_collapses, (keep_last_sorted _ HS), collapse_adjacent_idem.
  reflexivity.
Qed.

Lemma scaled_keep_last scalar stops :
  map (scaled_stop scalar) (keep_last_color stops)
  = keep_last (map (scaled_stop scalar) stops).
Proof.
  unfold keep_last_color. rewrite map_map.
  transitivity (keep_last (map (fun s => (fst s, map (Qmult scalar) (snd s)))
                               (map (fun s => (cs_Location s, cs_Color s)) stops))).
  - rewrite keep_last_map. apply map_ext. intros s. reflexivity.
  - rewrite map_map. reflexivity.
Qed.

(** C7. For stops sorted by location, the lists the interpolant is built
    from hold, of the stops that share a location, only the last one; so
    the colour map of the descriptor is the colour map of the descriptor
    with only the last stop kept at each location. *)
Theorem duplicate_stops_collapse {I : Imaging} {N : Numeric}
  (env : environment) (m : string) (grad : gradient) (stops : list color_stop)
  (Z0 : field) :
  Key_Colors grad = Some stops ->
  Sorted Z.le (map cs_Location stops) ->
  result (for_each collect_stop (map (scaled_stop (mode_scalar m)) stops) ([], []))
  = Return (map location_of (keep_last (map (scaled_stop (mode_scalar m)) stops)),
            map snd (keep_last (map (scaled_stop (mode_scalar m)) stops)))
  /\ result (_apply_color_map env m (Some (with_colors grad (keep_last_color stops))) Z0)
     = result (_apply_color_map env m (Some grad) Z0).
Proof.
  intros Hstops HS.
  assert (HS' : Sorted Z.le (map fst (map (scaled_stop (mode_scalar m)) stops)))
    by (rewrite map_map; exact HS).
  split.
  - rewrite collect_loop_collapses, (keep_last_sorted _ HS'). reflexivity.
  - unfold _apply_color_map.
    destruct (negb (numpy_available env) || negb (scipy_available env));
      [reflexivity|].
    cbn [with_colors Type_GradientForm].
    destruct (Type_GradientForm grad) as [[| |code]|]; try reflexivity.
    apply result_bind; [|reflexivity].
    unfold stops_color_map. cbn [with_colors Key_Colors Key_Transparency].
    rewrite Hstops. cbn [get].
    apply result_bind; [|reflexivity].
    fold (scaled_stop (mode_scalar m)).
    rewrite scaled_keep_last. apply collect_stops_keep_last. exact HS'.
Qed.

(** C7 on the specification's example. *)
Lemma duplicate_stops_collapse_witness :
  Sorted Z.le (map cs_Location stops_ABCD)
  /\ keep_last_color stops_ABCD = stops_ACD
  /\ result (_apply_color_map (I := nearest_imaging) (N := rational_numeric)
               full_environment "RGB" (Some (custom_gradient stops_ACD))
               [[0; 1 # 4; 1 # 2; 3 # 4; 1]%Q])
     = result (_apply_color_map (I := nearest_imaging) (N := rational_numeric)
                 full_environment "RGB" (Some (custom_gradient stops_ABCD))
                 [[0; 1 # 4; 1 # 2; 3 # 4; 1]%Q]).
Proof.
  assert (HS : Sorted Z.le (map cs_Location stops_ABCD)).
  { cbn [map stops_ABCD cs_Location]. repeat constructor; lia. }
  split; [exact HS | split; [reflexivity|]].
  exact (proj2 (duplicate_stops_collapse (I := nearest_imaging) (N := rational_numeric)
                  full_environment "RGB" (custom_gradient stops_ABCD) stops_ABCD
                  [[0; 1 # 4; 1 # 2; 3 # 4; 1]%Q] eq_refl HS)).
Defined.

(** ** The unit scalar *)

(** C3, at mode LA. The table holds RGB, L and CMYK and is looked up with
    the mode as it is: the grayscale mode with alpha falls to the default
    1.0, and the 50 percent grey that renders as 127 in mode L renders as
    50 in mode LA. *)
Theorem scalar_of_grayscale_with_alpha :
  mode_scalar "RGB" = 1%Q /\ mode_scalar "RGBA" = 1%Q
  /\ mode_scalar "L" = (255 # 100)%Q /\ mode_scalar "CMYK" = (255 # 100)%Q
  /\ mode_scalar "LA" = 1%Q
  /\ result (stops_color_map (I := nearest_imaging) (N := rational_numeric)
               "L" grey_50 [[0%Q]])
     = Return (mkImage "L" (1, 1) [[127]])
  /\ result (stops_color_map (I := nearest_imaging) (N := rational_numeric)
               "LA" grey_50 [[0%Q]])
     = Return (mkImage "L" (1, 1) [[50]]).
Proof. repeat split; reflexivity. Qed.

(** Whatever the mode, the scalar is 2.55 exactly for L and CMYK. *)
Lemma mode_scalar_cases m :
  mode_scalar m = (if String.eqb m "L" || String.eqb m "CMYK" then (255 # 100)%Q else 1%Q).
Proof.
  unfold mode_scalar, dict_get.
  rewrite (String.eqb_sym "RGB" m), (String.eqb_sym "L" m), (String.eqb_sym "CMYK" m).
  destruct (String.eqb_spec m "RGB") as [-> | _]; [reflexivity|].
  destruct (String.eqb m "L"); [reflexivity|].
  destruct (String.eqb m "CMYK"); reflexivity.
Qed.

(** ** Failures of the gradient fill *)

Section GradientFailures.

Context {I : Imaging} {N : Numeric}.

(** With both packages and an unknown gradient form, the colour map logs
    an error and returns [None]; the opacity step that follows reads the
    mode of that [None] unless the opacity is 100. *)
Lemma gradient_unknown_form_run env m sz setting XY l0 kind grad code :
  numpy_available env = true -> scipy_available env = true ->
  coordinate_fields sz setting = (Return XY, l0) ->
  Key_Type setting = Some kind ->
  Key_Gradient setting = Some grad ->
  Type_GradientForm grad = Some (OtherForm code) ->
  draw_gradient_fill env m sz setting
  = (if opacity_of setting =? 100 then Return None else Raise AttributeError,
     l0 ++ kind_logs kind ++ [(ERROR, "Unknown gradient form")]).
Proof.
  intros Hnp Hsp Hxy Hkind Hgrad Hform.
  unfold draw_gradient_fill, _apply_color_map, _apply_opacity.
  rewrite Hnp, Hsp, Hxy, Hkind, Hgrad, Hform. cbn [negb orb].
  destruct XY as [X Y].
  destruct (opacity_of setting =? 100); destruct kind; reflexivity.
Qed.

(** With numpy and without scipy, the import in [_apply_color_map]
    raises. *)
Lemma gradient_without_scipy_run env m sz setting XY l0 kind :
  numpy_available env = true -> scipy_available env = false ->
  coordinate_fields sz setting = (Return XY, l0) ->
  Key_Type setting = Some kind ->
  draw_gradient_fill env m sz setting = (Raise ImportError, l0 ++ kind_logs kind).
Proof.
  intros Hnp Hsp Hxy Hkind.
  unfold draw_gradient_fill, _apply_color_map.
  rewrite Hnp, Hsp, Hxy, Hkind. cbn [negb orb].
  destruct XY as [X Y]. destruct kind; reflexivity.
Qed.

(** Without numpy, the fill logs an error and returns [None]. *)
Lemma gradient_without_numpy_run env m sz setting :
  numpy_available env = false ->
  draw_gradient_fill env m sz setting
  = (Return None, [(ERROR, "Gradient fill requires numpy and scipy.")]).
Proof.
  intros Hnp. unfold draw_gradient_fill. rewrite Hnp. reflexivity.
Qed.

End GradientFailures.

(** C4, at opacity 50. The colour map logs the diagnostic and returns
    [None]; [draw_gradient_fill] then applies the opacity to that [None],
    which raises [AttributeError].  At opacity 100 the fill returns
    [None]. *)
Theorem unknown_form_at_opacity_50 :
  draw_gradient_fill (I := nearest_imaging) (N := rational_numeric)
    full_environment "RGB" (2, 2) (unknown_form_setting 50)
  = (Raise AttributeError, [(ERROR, "Unknown gradient form")])
  /\ draw_gradient_fill (I := nearest_imaging) (N := rational_numeric)
       full_environment "RGB" (2, 2) (unknown_form_setting 100)
     = (Return None, [(ERROR, "Unknown gradient form")]).
Proof. split; reflexivity. Qed.

(** C5, with numpy installed and scipy missing. The import of scipy in
    [_apply_color_map] is not guarded: the fill raises [ImportError] and
    logs nothing.  With numpy missing it logs the diagnostic and returns
    [None]. *)
Theorem gradient_fill_without_scipy :
  draw_gradient_fill (I := nearest_imaging) (N := rational_numeric)
    (mkEnvironment true false) "RGB" (2, 2) linear_setting
  = (Raise ImportError, [])
  /\ draw_gradient_fill (I := nearest_imaging) (N := rational_numeric)
       (mkEnvironment false false) "RGB" (2, 2) linear_setting
     = (Return None, [(ERROR, "Gradient fill requires numpy and scipy.")]).
Proof. split; reflexivity. Qed.

(** ** Coordinate fields *)

Lemma py_fmod_range x m : (0 < m -> 0 <= py_fmod x m /\ py_fmod x m < m)%Q.
Proof.
  intros Hm. unfold py_fmod.
  pose proof (Qfloor_le (x / m)) as H1.
  pose proof (Qlt_floor (x / m)) as H2.
  assert (E : (x == m * (x / m))%Q) by (field; lra).
  rewrite inject_Z_plus in H2. change (inject_Z 1) with 1%Q in H2.
  set (f := inject_Z (Qfloor (x / m))) in *.
  set (q := (x / m)%Q) in *.
  split; rewrite E at 1; nra.
Qed.

Lemma py_div_run a s : (0 < s)%Q -> py_div a s = ret (a / s)%Q.
Proof.
  intros Hs. unfold py_div.
  destruct (Qeq_bool s 0) eqn:E; [|reflexivity].
  apply Qeq_bool_iff in E. lra.
Qed.

Lemma linspace_spans a b n :
  1 <= n -> exists xs, linspace a b n = ret xs /\ spans xs a b n.
Proof.
  intros Hn. unfold linspace.
  rewrite (proj2 (Z.ltb_ge n 0)) by lia.
  eexists. split; [reflexivity|].
  set (step := ((b - a) / inject_Z (n - 1))%Q).
  set (f := fun i : nat => (a + inject_Z (Z.of_nat i) * step)%Q).
  assert (Hnth : forall i, (i < Z.to_nat n)%nat -> nth i (map f (seq 0 (Z.to_nat n))) 0%Q = f i).
  { intros i Hi.
    rewrite (nth_indep _ 0%Q (f 0%nat)) by (rewrite length_map, length_seq; exact Hi).
    rewrite map_nth, seq_nth by exact Hi. reflexivity. }
  unfold spans. repeat split.
  - rewrite length_map, length_seq. reflexivity.
  - intros i Hi. rewrite (Hnth i Hi). reflexivity.
  - rewrite (Hnth 0%nat) by lia. unfold f. cbn [Z.of_nat]. ring.
  - intros H2. rewrite (Hnth (Z.to_nat (n - 1))) by lia.
    unfold f, step. rewrite Z2Nat.id by lia.
    assert (Hpos : (0 < inject_Z (n - 1))%Q)
      by (change 0%Q with (inject_Z 0); rewrite <- Zlt_Qlt; lia).
    field. lra.
Qed.

Lemma map_const_repeat {A B} (b : B) (l : list A) :
  map (fun _ => b) l = repeat b (List.length l).
Proof. induction l as [|a l IH]; cbn [map List.length repeat]; congruence. Qed.

Lemma effective_scale_positive w h setting :
  1 <= w -> 1 <= h -> (0 < scale_factor setting)%Q ->
  (0 < effective_scale (w, h) setting)%Q.
Proof.
  intros Hw Hh Hs. unfold effective_scale. cbn [fst snd].
  fold (scale_factor setting). fold (angle_ratio setting).
  destruct (py_fmod_range (get (Key_Angle setting) 0%Q) (inject_Z 90)) as [R0 R1];
    [reflexivity|].
  fold (angle_ratio setting) in R0, R1.
  set (r := angle_ratio setting) in *. set (s := scale_factor setting) in *.
  change (inject_Z 90) with 90%Q in *.
  assert (Hw' : (1 <= inject_Z w)%Q) by (change 1%Q with (inject_Z 1); rewrite <- Zle_Qle; lia).
  assert (Hh' : (1 <= inject_Z h)%Q) by (change 1%Q with (inject_Z 1); rewrite <- Zle_Qle; lia).
  assert (HA : (0 < (90 - r) / 90)%Q) by (apply Qlt_shift_div_l; lra).
  assert (HB : (0 <= r / 90)%Q) by (apply Qle_shift_div_l; lra).
  set (A := ((90 - r) / 90)%Q) in *. set (B := (r / 90)%Q) in *.
  assert (HAW : (0 < A * inject_Z w)%Q) by (apply Qmult_lt_0_compat; lra).
  assert (HBH : (0 <= B * inject_Z h)%Q) by (apply Qmult_le_0_compat; lra).
  apply Qmult_lt_0_compat; lra.
Qed.

(** C8. On a canvas of at least one pixel each way and with a positive
    scale factor, the effective scale is
    scale x (((90 - ratio) / 90) x w + (ratio / 90) x h) where ratio is
    the angle modulo 90, the number from 0 up to but not 90 that differs
    from the angle by a whole multiple of 90; it is positive, and the
    fields are the mesh of [w] samples spanning
    [-w / effective, w / effective] linearly along the columns and [h]
    samples spanning [-h / effective, h / effective] along the rows. *)
Theorem coordinate_field_grid (w h : Z) (setting : descriptor) :
  1 <= w -> 1 <= h -> (0 < scale_factor setting)%Q ->
  exists (ratio : Q) (k : Z),
    (get (Key_Angle setting) 0 == inject_Z 90 * inject_Z k + ratio)%Q
    /\ (0 <= ratio)%Q /\ (ratio < inject_Z 90)%Q
    /\ (effective_scale (w, h) setting
        == scale_factor setting
           * ((inject_Z 90 - ratio) / inject_Z 90 * inject_Z w
              + (ratio / inject_Z 90) * inject_Z h))%Q
    /\ (0 < effective_scale (w, h) setting)%Q
    /\ exists xs ys : list Q,
         coordinate_fields (w, h) setting = ret (meshgrid xs ys)
         /\ spans xs (- inject_Z w / effective_scale (w, h) setting)%Q
                     (inject_Z w / effective_scale (w, h) setting)%Q w
         /\ spans ys (- inject_Z h / effective_scale (w, h) setting)%Q
                     (inject_Z h / effective_scale (w, h) setting)%Q h
         /\ fst (meshgrid xs ys) = repeat xs (Z.to_nat h)
         /\ snd (meshgrid xs ys) = map (fun y => repeat y (Z.to_nat w)) ys.
Proof.
  intros Hw Hh Hs.
  pose proof (effective_scale_positive w h setting Hw Hh Hs) as Hpos.
  destruct (py_fmod_range (get (Key_Angle setting) 0%Q) (inject_Z 90)) as [R0 R1];
    [reflexivity|].
  exists (py_fmod (get (Key_Angle setting) 0%Q) (inject_Z 90)),
         (Qfloor (get (Key_Angle setting) 0%Q / inject_Z 90)).
  split; [unfold py_fmod; ring|].
  split; [exact R0|]. split; [exact R1|].
  split; [reflexivity | split; [exact Hpos|]].
  destruct (linspace_spans (- inject_Z w / effective_scale (w, h) setting)%Q
              (inject_Z w / effective_scale (w, h) setting)%Q w Hw) as (xs & Ex & Sx).
  destruct (linspace_spans (- inject_Z h / effective_scale (w, h) setting)%Q
              (inject_Z h / effective_scale (w, h) setting)%Q h Hh) as (ys & Ey & Sy).
  exists xs, ys. unfold coordinate_fields. cbn [fst snd].
  repeat first [ rewrite py_div_run by exact Hpos
               | rewrite bind_ret_l | rewrite Ex | rewrite Ey ].
  repeat split; try apply Sx; try apply Sy.
  - unfold meshgrid. cbn [fst]. rewrite map_const_repeat.
    destruct Sy as [L _]. rewrite L. reflexivity.
  - unfold meshgrid. cbn [snd]. apply map_ext. intros y.
    rewrite map_const_repeat. destruct Sx as [L _]. rewrite L. reflexivity.
Qed.

(** C8 on a 5 x 3 canvas at angle -45 and scale 50 percent: the ratio is
    45, not -45, the effective scale is 0.5 x (2.5 + 1.5) = 2 and the
    columns run from -5/2 to 5/2. *)
Lemma coordinate_field_grid_witness :
  (1 <= 5 /\ 1 <= 3 /\ (0 < scale_factor slanted_setting)%Q)
  /\ exists (ratio : Q) (xs ys : list Q),
       (ratio == 45)%Q
       /\ (effective_scale (5%Z, 3%Z) slanted_setting
           == scale_factor slanted_setting
              * ((inject_Z 90 - ratio) / inject_Z 90 * inject_Z 5
                 + (ratio / inject_Z 90) * inject_Z 3))%Q
       /\ (effective_scale (5%Z, 3%Z) slanted_setting == 2)%Q
       /\ coordinate_fields (5, 3) slanted_setting = ret (meshgrid xs ys)
       /\ List.length xs = 5%nat
       /\ (nth 0 xs 0 == - (5 # 2))%Q /\ (nth 4 xs 0 == 5 # 2)%Q.
Proof.
  assert (H5 : 1 <= 5) by lia.
  assert (H3 : 1 <= 3) by lia.
  assert (Hs : (0 < scale_factor slanted_setting)%Q) by reflexivity.
  destruct (coordinate_field_grid 5 3 slanted_setting H5 H3 Hs)
    as (ratio & k & Ha & R0 & R1 & He & _ & xs & ys & Hrun & (L & _ & First & Last) & _).
  split; [split; [exact H5 | split; [exact H3 | exact Hs]]|].
  assert (Hr : (ratio == 45)%Q).
  { change (get (Key_Angle slanted_setting) 0%Q) with (- (45))%Q in Ha.
    change (inject_Z 90) with 90%Q in Ha, R1.
    assert (K1 : (inject_Z (-2) < inject_Z k)%Q)
      by (change (inject_Z (-2)) with (- (2))%Q; lra).
    assert (K2 : (inject_Z k < inject_Z 0)%Q) by (change (inject_Z 0) with 0%Q; lra).
    rewrite <- Zlt_Qlt in K1, K2.
    assert (Ek : k = -1) by lia. subst k.
    change (inject_Z (-1)) with (- (1))%Q in Ha. lra. }
  exists ratio, xs, ys.
  split; [exact Hr|]. split; [exact He|]. split.
  { rewrite He, Hr. vm_compute. reflexivity. }
  split; [exact Hrun|]. split; [exact L|]. split.
  - rewrite First. vm_compute. reflexivity.
  - change 4%nat with (Z.to_nat (5 - 1)). rewrite Last by lia.
    vm_compute. reflexivity.
Defined.

(** ** Pattern fill *)













Lemma getmodebands_cases m :
  getmodebands m <> None ->
  In m ["1"; "L"; "P"; "LA"; "PA"; "RGB"; "YCbCr"; "LAB"; "HSV"; "RGBA"; "RGBX"; "CMYK"].
Proof.
  unfold getmodebands, dict_get.
  repeat match goal with
         | |- context [String.eqb ?k m] =>
             destruct (String.eqb_spec k m) as [<- | _]; [intros _; cbn; tauto|]
         end.
  intros H; congruence.
Qed.



(** The opacity step returns on an image of a PIL mode at an opacity
    between 0 and 100, and keeps its size. *)
Lemma apply_opacity_returns {I : Imaging} (im : image) setting :
  getmodebands (mode im) <> None ->
  0 <= opacity_of setting <= 100 ->
  exists im', _apply_opacity (Some im) setting = ret (Some im')
    /\ size im' = size im /\ getmodebands (mode im') <> None.
Proof.
  intros Hv Hp.
  destruct (Z.eq_dec (opacity_of setting) 100) as [E | E].
  - rewrite apply_opacity_noop by exact E. exists im. auto.
  - assert (Hc : c_int (opacity_of setting * 255) = true).
    { unfold c_int. apply andb_true_intro.
      split; [apply Z.leb_le | apply Z.ltb_lt]; lia. }
    apply getmodebands_cases in Hv. destruct im as [m s b]. cbn [mode] in Hv.
    unfold _apply_opacity, putalpha_const.
    rewrite (proj2 (Z.eqb_neq _ _) E), Hc. cbn [negb].
    repeat (destruct Hv as [<- | Hv];
            [eexists; split; [reflexivity | split; [reflexivity | cbv; discriminate]]|]).
    destruct Hv.
Qed.









(** * Further properties *)

(** ** The vector mask of a layer whose box is inverted *)

Lemma bind_assoc {A B C} (m : M A) (f : A -> M B) (g : B -> M C) :
  bind (bind m f) g = bind m (fun a => bind (f a) g).
Proof.
  unfold bind. destruct m as [[a|e] l]; [|reflexivity].
  destruct (f a) as [[b|e] l1]; [|reflexivity].
  destruct (g b) as [o l2]. rewrite app_assoc. reflexivity.
Qed.

Lemma bind_ret_r {A} (m : M A) : bind m (fun a => ret a) = m.
Proof.
  unfold bind, ret. destruct m as [[a|e] l]; [|reflexivity].
  rewrite app_nil_r. reflexivity.
Qed.

Section MaskInvariants.

Context {R : Rasterizer}.

(** X1. On a canvas of at least one pixel each way, [draw_vector_mask]
    composes the mask and then crops it to the box of the layer: a box
    with right < left or bottom < top makes the crop raise [ValueError],
    whatever the fill rule and the sub-paths, and nothing is logged; with
    any other box the call returns. *)
Theorem vector_mask_inverted_box (l : layer) (x0 y0 x1 y1 : Z) :
  bbox l = (x0, y0, x1, y1) ->
  1 <= psd_width l -> 1 <= psd_height l ->
  (x1 < x0 \/ y1 < y0 -> draw_vector_mask l = raise ValueError)
  /\ (x0 <= x1 -> y0 <= y1 -> exists im : image, draw_vector_mask l = ret im).
Proof.
  intros Hbox Hw Hh. unfold draw_vector_mask.
  rewrite (accumulate_mask_run l) by lia. rewrite bind_ret_l.
  cbn [fst]. rewrite Hbox. unfold crop. split.
  - intros Hinv.
    assert (E : (x1 <? x0) || (y1 <? y0) = true).
    { apply orb_true_iff. destruct Hinv; [left | right]; apply Z.ltb_lt; assumption. }
    rewrite E. reflexivity.
  - intros Hx Hy.
    rewrite (proj2 (Z.ltb_ge x1 x0)), (proj2 (Z.ltb_ge y1 y0)) by lia.
    eexists. reflexivity.
Qed.

(** X2. A sub-path whose operation is none of 0, 1, 2, 3 leaves the
    accumulator as it is and still clears the flag: the sub-paths after it
    are combined as if none of them were the first, so a subtraction or an
    intersection that follows is not preceded by the inversion. *)
Theorem unknown_operation_clears_first (l : layer) (sp : subpath) (rest : list subpath) :
  paths (layer_vector_mask l) = sp :: rest ->
  operation sp < 0 \/ 3 < operation sp ->
  0 <= psd_width l -> 0 <= psd_height l ->
  accumulate_mask l
  = ret (mkImage "L" (psd_width l, psd_height l)
           [MaskSpec.compose_from 1
              (repeat (clip8 (255 * initial_fill_rule (layer_vector_mask l)))
                      (canvas_pixels l))
              (map (fun s => (operation s, subpath_plane s (psd_width l) (psd_height l)))
                   rest)],
         false).
Proof.
  intros Hp Hop Hw Hh.
  rewrite (accumulate_mask_run l Hw Hh). unfold subpath_planes. rewrite Hp.
  cbn [map MaskSpec.compose_from is_nil Nat.eqb].
  unfold MaskSpec.combine_op.
  rewrite (proj2 (Z.eqb_neq (operation sp) 0)),
          (proj2 (Z.eqb_neq (operation sp) 1)),
          (proj2 (Z.eqb_neq (operation sp) 2)),
          (proj2 (Z.eqb_neq (operation sp) 3)) by lia.
  reflexivity.
Qed.

End MaskInvariants.

(** X1 on [inverted_layer]. *)
Lemma vector_mask_inverted_box_witness :
  (1 <= psd_width inverted_layer /\ 1 <= psd_height inverted_layer /\ 0 < 2)
  /\ draw_vector_mask (R := cover_rasterizer) inverted_layer = raise ValueError.
Proof.
  assert (Hw : 1 <= psd_width inverted_layer) by (cbn; lia).
  assert (Hh : 1 <= psd_height inverted_layer) by (cbn; lia).
  assert (Hx : 0 < 2) by lia.
  split; [split; [exact Hw | split; [exact Hh | exact Hx]]|].
  exact (proj1 (vector_mask_inverted_box (R := cover_rasterizer) inverted_layer 2 0 0 1
                  eq_refl Hw Hh) (or_introl Hx)).
Defined.

(** X2 on [merged_layer]: the canvas stays empty under the sub-path of
    operation -1 and the triangle is intersected with it without inversion,
    which leaves it empty; as the first sub-path the triangle would have
    been intersected with the inverted, full canvas. *)
Lemma unknown_operation_clears_first_witness :
  (operation (mkSubpath [] true (-1)) < 0 /\ 0 <= psd_width merged_layer)
  /\ accumulate_mask (R := cover_rasterizer) merged_layer
     = ret (mkImage "L" (2, 1) [[0; 0]], false).
Proof.
  assert (Hop : operation (mkSubpath [] true (-1)) < 0) by (cbn; lia).
  assert (Hw : 0 <= psd_width merged_layer) by (cbn; lia).
  assert (Hh : 0 <= psd_height merged_layer) by (cbn; lia).
  split; [split; assumption|].
  rewrite (unknown_operation_clears_first (R := cover_rasterizer) merged_layer
             (mkSubpath [] true (-1)) [triangle 3] eq_refl (or_introl Hop) Hw Hh).
  reflexivity.
Defined.

(** ** Exclusion *)

Lemma difference_twice acc pl :
  List.length pl = List.length acc -> eight_bit acc -> bilevel pl ->
  zip_with (fun a p => Z.abs (a - p)) (zip_with (fun a p => Z.abs (a - p)) acc pl) pl
  = acc.
Proof.
  revert pl; induction acc as [|a acc IH]; intros [|p pl] L Ha Hp;
    cbn [List.length] in L; try discriminate; [reflexivity|].
  cbn [zip_with]. inversion Ha as [|? ? Ha0 Ha']; subst.
  inversion Hp as [|? ? Hp0 Hp']; subst.
  rewrite (IH pl) by (auto; lia). f_equal. lia.
Qed.

(** X3. Two exclusions of the same plane in a row cancel when the plane
    holds full and empty pixels only: the accumulator is again the uniform
    start. *)
Theorem exclusion_twice_cancels {R : Rasterizer} (l : layer) (sp sp' : subpath) :
  paths (layer_vector_mask l) = [sp; sp'] ->
  operation sp = 0 -> operation sp' = 0 ->
  subpath_plane sp' (psd_width l) (psd_height l)
  = subpath_plane sp (psd_width l) (psd_height l) ->
  bilevel (subpath_plane sp (psd_width l) (psd_height l)) ->
  0 <= psd_width l -> 0 <= psd_height l ->
  accumulate_mask l
  = ret (mkImage "L" (psd_width l, psd_height l)
           [repeat (clip8 (255 * initial_fill_rule (layer_vector_mask l)))
                   (canvas_pixels l)],
         false).
Proof.
  intros Hp Hop Hop' Hsame Hbi Hw Hh.
  rewrite (accumulate_mask_run l Hw Hh). unfold subpath_planes. rewrite Hp.
  cbn [map MaskSpec.compose_from is_nil]. rewrite Hop, Hop', Hsame.
  unfold MaskSpec.combine_op. cbn [Z.eqb].
  rewrite difference_twice; [reflexivity | | | exact Hbi].
  - rewrite subpath_plane_length, repeat_length. reflexivity.
  - apply eight_bit_repeat, clip8_range.
Qed.

(** X3 on [twice_excluded_layer]. *)
Lemma exclusion_twice_cancels_witness :
  (bilevel (subpath_plane (R := cover_rasterizer) (triangle 0) 2 1)
   /\ 0 <= psd_width twice_excluded_layer)
  /\ accumulate_mask (R := cover_rasterizer) twice_excluded_layer
     = ret (mkImage "L" (2, 1) [[255; 255]], false).
Proof.
  assert (Hbi : bilevel (subpath_plane (R := cover_rasterizer) (triangle 0) 2 1))
    by (repeat constructor).
  assert (Hw : 0 <= psd_width twice_excluded_layer) by (cbn; lia).
  assert (Hh : 0 <= psd_height twice_excluded_layer) by (cbn; lia).
  split; [split; assumption|].
  rewrite (exclusion_twice_cancels (R := cover_rasterizer) twice_excluded_layer
             (triangle 0) (triangle 0) eq_refl eq_refl eq_refl eq_refl Hbi Hw Hh).
  reflexivity.
Defined.

(** ** The length of a symbol *)

(** X4. The sequence of a path without knots is empty; that of a path of
    [n] knots holds the move, the command, six numbers for each of its
    segments ([n] when closed, [n - 1] when open) and the closing command
    of a closed path. *)
Theorem symbol_length (path : subpath) (width height : Z) (command : string) :
  List.length (_generate_symbol path width height command)
  = match knots path with
    | [] => 0%nat
    | _ :: _ =>
        (4 + 6 * segment_count (is_closed path) (List.length (knots path))
         + (if is_closed path then 1 else 0))%nat
    end.
Proof.
  unfold _generate_symbol. destruct (knots path) as [|p0 rest] eqn:Hk; [reflexivity|].
  cbn [List.length app]. rewrite length_app.
  rewrite (flat_map_rows_length _ 6) by (intros [p1 p2]; reflexivity).
  unfold segment_count.
  destruct (is_closed path); cbn [tl firstn List.length];
    rewrite length_combine; cbn [List.length]; rewrite ?length_app; cbn [List.length]; lia.
Qed.

(** ** Opacity on a buffer *)

Lemma scaled_alpha_bounds a p :
  0 <= a <= 255 -> 0 <= p <= 100 ->
  clip8 (Z.quot (a * p) 100) = a * p / 100 /\ 0 <= a * p / 100 <= a.
Proof.
  intros Ha Hp. rewrite Z.quot_div_nonneg by nia.
  assert (0 <= a * p / 100) by (apply Z.div_pos; nia).
  assert (a * p / 100 <= a).
  { apply Z.div_le_upper_bound; nia. }
  split; [apply clip8_id; lia | lia].
Qed.

(** X5. On a buffer with an alpha channel, an opacity between 0 and 100
    keeps the mode, the size and the colour bands and replaces each alpha
    value [a] by [a * p / 100] rounded down, which is never more than
    [a]. *)
Theorem opacity_lowers_alpha {I : Imaging} (im : image) (setting : descriptor) :
  has_alpha_mode (mode im) = true ->
  eight_bit (alpha_band im) ->
  0 <= opacity_of setting <= 100 ->
  exists im' : image,
    _apply_opacity (Some im) setting = ret (Some im')
    /\ mode im' = mode im /\ size im' = size im
    /\ removelast (bands im') = removelast (bands im)
    /\ alpha_band im' = map (fun a => a * opacity_of setting / 100) (alpha_band im)
    /\ Forall2 (fun a a' => 0 <= a' <= a) (alpha_band im) (alpha_band im').
Proof.
  intros Hm H8 Hp.
  assert (Hle : Forall2 (fun a a' => 0 <= a' <= a) (alpha_band im)
                  (map (fun a => a * opacity_of setting / 100) (alpha_band im))).
  { unfold eight_bit in H8. induction H8 as [|a r Ha _ IH]; cbn [map]; constructor.
    - apply scaled_alpha_bounds; assumption.
    - exact IH. }
  assert (Hmap : map (fun a => clip8 (Z.quot (a * opacity_of setting) 100)) (alpha_band im)
                 = map (fun a => a * opacity_of setting / 100) (alpha_band im)).
  { apply map_ext_in. intros a Ha. unfold eight_bit in H8.
    rewrite Forall_forall in H8. apply scaled_alpha_bounds; auto. }
  destruct (Z.eq_dec (opacity_of setting) 100) as [E | E].
  - exists im. rewrite apply_opacity_noop by exact E.
    assert (Hid : map (fun a => a * opacity_of setting / 100) (alpha_band im)
                  = alpha_band im).
    { rewrite E. rewrite <- (map_id (alpha_band im)) at 2. apply map_ext.
      intros a. apply Z.div_mul. lia. }
    rewrite Hid in *. repeat match goal with |- _ /\ _ => split end; auto.
  - eexists. rewrite apply_opacity_scales_alpha by assumption.
    split; [reflexivity|].
    assert (Hlast : alpha_band (set_alpha_band im
                      (map (fun a => clip8 (Z.quot (a * opacity_of setting) 100))
                           (alpha_band im)))
                    = map (fun a => a * opacity_of setting / 100) (alpha_band im)).
    { unfold set_alpha_band, alpha_band at 1. cbn [bands]. rewrite last_last. exact Hmap. }
    rewrite Hlast. unfold set_alpha_band. cbn [mode size bands].
    rewrite removelast_last.
    repeat match goal with |- _ /\ _ => split end; auto.
Qed.

(** X5 on [translucent_image] at opacity 50. *)
Lemma opacity_lowers_alpha_witness :
  (eight_bit (alpha_band translucent_image)
   /\ 0 <= opacity_of (opacity_setting 50) <= 100)
  /\ exists im' : image,
       _apply_opacity (I := nearest_imaging) (Some translucent_image) (opacity_setting 50)
       = ret (Some im')
       /\ mode im' = "LA" /\ alpha_band im' = [127; 50].
Proof.
  assert (H8 : eight_bit (alpha_band translucent_image))
    by (repeat constructor; cbn; lia).
  assert (Hp : 0 <= opacity_of (opacity_setting 50) <= 100) by (cbn; lia).
  split; [split; assumption|].
  destruct (opacity_lowers_alpha (I := nearest_imaging) translucent_image
              (opacity_setting 50) eq_refl H8 Hp)
    as (im' & Hrun & Hm & _ & _ & Ha & _).
  exists im'. split; [exact Hrun | split; [exact Hm | exact Ha]].
Defined.

Lemma c_int_opacity p :
  c_int (p * 255) = (-8421504 <=? p) && (p <=? 8421504).
Proof.
  unfold c_int. change (2 ^ 31) with 2147483648.
  destruct (Z.leb_spec (-8421504) p), (Z.leb_spec p 8421504);
    destruct (Z.leb_spec (- 2147483648) (p * 255)), (Z.ltb_spec (p * 255) 2147483648);
    cbn [andb]; try reflexivity; lia.
Qed.

(** X6. On an RGB or L buffer, without alpha, an opacity other than 100
    makes [putalpha] fill a new alpha band with [opacity * 255].  While
    that product is a C [int], for opacities from -8421504 to 8421504, the
    colour bands stay as they are, the mode gets its alpha suffix and the
    band is uniformly 255 for an opacity of 1 or more and uniformly 0 for
    an opacity of 0 or less; beyond, the call raises [OverflowError]. *)
Theorem opacity_on_opaque_buffer {I : Imaging} (im : image) (setting : descriptor) :
  mode im = "RGB" \/ mode im = "L" ->
  opacity_of setting <> 100 ->
  _apply_opacity (Some im) setting
  = if (-8421504 <=? opacity_of setting) && (opacity_of setting <=? 8421504)
    then ret (Some (mkImage (mode im ++ "A")%string (size im)
                      (bands im ++ [repeat (if 1 <=? opacity_of setting then 255 else 0)
                                           (Z.to_nat (width im * height im))])))
    else raise OverflowError.
Proof.
  intros Hm Hp. rewrite apply_opacity_synthesizes by assumption.
  rewrite c_int_opacity, synthesized_alpha_value. reflexivity.
Qed.

(** X6 on a grey pixel, at opacity 1 and at opacity 8421505. *)
Lemma opacity_on_opaque_buffer_witness :
  (opacity_of (opacity_setting 1) <> 100 /\ opacity_of (opacity_setting 8421505) <> 100)
  /\ _apply_opacity (I := nearest_imaging) (Some (mkImage "L" (1, 1) [[7]]))
       (opacity_setting 1)
     = ret (Some (mkImage "LA" (1, 1) [[7]; [255]]))
  /\ _apply_opacity (I := nearest_imaging) (Some (mkImage "L" (1, 1) [[7]]))
       (opacity_setting 8421505)
     = raise OverflowError.
Proof.
  assert (Hp : opacity_of (opacity_setting 1) <> 100) by discriminate.
  assert (Hq : opacity_of (opacity_setting 8421505) <> 100) by discriminate.
  split; [split; assumption | split].
  - rewrite (opacity_on_opaque_buffer (I := nearest_imaging) (mkImage "L" (1, 1) [[7]])
               (opacity_setting 1) (or_intror eq_refl) Hp).
    reflexivity.
  - rewrite (opacity_on_opaque_buffer (I := nearest_imaging) (mkImage "L" (1, 1) [[7]])
               (opacity_setting 8421505) (or_intror eq_refl) Hq).
    reflexivity.
Defined.

(** ** Pattern lookup *)

Lemma rstrip_nuls_only k : rstrip (nuls k) zero = EmptyString.
Proof. induction k as [|k IH]; cbn [nuls rstrip]; [reflexivity | rewrite IH; reflexivity]. Qed.

Lemma rstrip_padding id k : rstrip (id ++ nuls k)%string zero = rstrip id zero.
Proof.
  induction id as [|a id IH]; cbn [append rstrip].
  - apply rstrip_nuls_only.
  - rewrite IH. reflexivity.
Qed.

(** X7. [draw_pattern_fill] reads the setting through the pattern id, the
    scale and the opacity only, and the id up to trailing NUL characters:
    two settings that agree on these give the same outcome and the same
    log.  When no pattern is found under the stripped id, the fill logs one
    error and returns [None]. *)
Theorem pattern_id_padding {I : Imaging} (sz : Z * Z) (psd : psd_image)
  (setting setting' : descriptor) (id : string) (k : nat) :
  Pattern_ID setting = Some id ->
  Pattern_ID setting' = Some (id ++ nuls k)%string ->
  Key_Scale setting' = Key_Scale setting ->
  Key_Opacity setting' = Key_Opacity setting ->
  draw_pattern_fill sz psd setting' = draw_pattern_fill sz psd setting
  /\ (psd (rstrip id zero) = None ->
      draw_pattern_fill sz psd setting' = (Return None, [(ERROR, "Pattern not found")])).
Proof.
  intros Hid Hid' Hscale Hop.
  assert (E : draw_pattern_fill sz psd setting' = draw_pattern_fill sz psd setting).
  { unfold draw_pattern_fill, scale_panel, _apply_opacity, opacity_of.
    rewrite Hid, Hid', Hscale, Hop, rstrip_padding. reflexivity. }
  split; [exact E|].
  intros Hnone. rewrite E. unfold draw_pattern_fill. rewrite Hid, Hnone. reflexivity.
Qed.

(** X7 on the id [pat] padded with two NULs. *)
Lemma pattern_id_padding_witness :
  Pattern_ID (mkDescriptor None (Some (inject_Z 50)) None None None None
                (Some ("pat" ++ nuls 2)%string))
  = Some ("pat" ++ nuls 2)%string
  /\ draw_pattern_fill (I := nearest_imaging) (3, 2) one_pattern
       (mkDescriptor None (Some (inject_Z 50)) None None None None
          (Some ("pat" ++ nuls 2)%string))
     = draw_pattern_fill (I := nearest_imaging) (3, 2) one_pattern half_scale_setting.
Proof.
  split; [reflexivity|].
  exact (proj1 (pattern_id_padding (I := nearest_imaging) (3, 2) one_pattern
                  half_scale_setting
                  (mkDescriptor None (Some (inject_Z 50)) None None None None
                     (Some ("pat" ++ nuls 2)%string))
                  "pat" 2 eq_refl eq_refl eq_refl eq_refl)).
Defined.

(** ** Solid colour fill *)

Lemma c_int_range v : - 2 ^ 31 <= v < 2 ^ 31 -> c_int v = true.
Proof.
  intros Hv. unfold c_int. apply andb_true_intro.
  split; [apply Z.leb_le | apply Z.ltb_lt]; lia.
Qed.

(** X8. A solid fill of three colour values in mode RGBA, each of them a
    C [int] once truncated, on a size that is not negative and at an
    opacity between 0 and 100, is the buffer of that size whose colour
    bands hold the values truncated to integers and saturated to 8 bits,
    and whose alpha is [255 * p / 100] rounded down, on every pixel. *)
Theorem solid_fill_rgba {I : Imaging} {D : Drawing} (w h : Z) (setting : solid_setting)
  (r g b : Q) :
  Key_Color setting = Some [r; g; b] ->
  Forall (fun v => - 2 ^ 31 <= py_int v < 2 ^ 31) [r; g; b] ->
  0 <= w -> 0 <= h ->
  0 <= opacity_of (fill_keys setting) <= 100 ->
  draw_solid_color_fill "RGBA" (w, h) setting
  = ret (Some (mkImage "RGBA" (w, h)
                 [repeat (clip8 (py_int r)) (Z.to_nat (w * h));
                  repeat (clip8 (py_int g)) (Z.to_nat (w * h));
                  repeat (clip8 (py_int b)) (Z.to_nat (w * h));
                  repeat (255 * opacity_of (fill_keys setting) / 100)
                         (Z.to_nat (w * h))])).
Proof.
  intros Hc Hint Hw Hh Hp. unfold draw_solid_color_fill. rewrite Hc.
  inversion Hint as [|? ? Hr Hint1]; subst.
  inversion Hint1 as [|? ? Hg Hint2]; subst.
  inversion Hint2 as [|? ? Hb _]; subst.
  unfold Image_new. rewrite (proj2 (Z.ltb_ge w 0)), (proj2 (Z.ltb_ge h 0)) by lia.
  cbn [orb getmodebands dict_get String.eqb Ascii.eqb Bool.eqb].
  rewrite bind_ret_l. unfold fill_canvas, draw_ink.
  cbn [bands getink seq map List.length Nat.leb forallb].
  rewrite (c_int_range _ Hr), (c_int_range _ Hg), (c_int_range _ Hb).
  cbn [andb firstn].
  rewrite !bind_ret_l. cbn [mode size width height fst snd map].
  change (clip8 255) with 255.
  destruct (Z.eq_dec (opacity_of (fill_keys setting)) 100) as [E | E].
  - rewrite apply_opacity_noop by exact E. rewrite E. reflexivity.
  - rewrite apply_opacity_scales_alpha by (try reflexivity; exact E).
    unfold set_alpha_band, alpha_band. cbn [mode size bands removelast last app].
    rewrite map_repeat.
    destruct (scaled_alpha_bounds 255 (opacity_of (fill_keys setting))) as [Ea _];
      [lia | exact Hp |].
    rewrite Ea. reflexivity.
Qed.

(** X8 on opaque red at opacity 50. *)
Lemma solid_fill_rgba_witness :
  (0 <= 2 /\ 0 <= opacity_of (fill_keys red_setting) <= 100)
  /\ draw_solid_color_fill (I := nearest_imaging) (D := strict_drawing)
       "RGBA" (2, 1) red_setting
     = ret (Some (mkImage "RGBA" (2, 1) [[255; 255]; [0; 0]; [0; 0]; [127; 127]])).
Proof.
  assert (H2 : 0 <= 2) by lia.
  assert (H1 : 0 <= 1) by lia.
  assert (Hp : 0 <= opacity_of (fill_keys red_setting) <= 100) by (cbn; lia).
  assert (Hint : Forall (fun v => - 2 ^ 31 <= py_int v < 2 ^ 31) [inject_Z 255; 0%Q; 0%Q])
    by (repeat constructor; cbn; lia).
  split; [split; assumption|].
  rewrite (solid_fill_rgba (I := nearest_imaging) (D := strict_drawing) 2 1 red_setting
             (inject_Z 255) 0%Q 0%Q eq_refl Hint H2 H1 Hp).
  reflexivity.
Defined.

(** ** The lists an interpolant is built from *)

Lemma collapse_adjacent_In {V} (x : Z * V) stops :
  In x (collapse_adjacent stops) -> In x stops.
Proof.
  induction stops as [|s r IH]; [intros []|].
  destruct r as [|t r]; [intros H; exact H|].
  rewrite collapse_adjacent_cons.
  destruct (fst s =? fst t); intros H.
  - right. apply IH, H.
  - destruct H as [<- | H]; [left; reflexivity | right; apply IH, H].
Qed.

Lemma collapse_adjacent_increasing {V} (stops : list (Z * V)) :
  Sorted Z.le (map fst stops) ->
  StronglySorted Z.lt (map fst (collapse_adjacent stops)).
Proof.
  intros HS. apply Sorted_StronglySorted in HS; [|intros x y z; apply Z.le_trans].
  induction stops as [|s r IH]; [constructor|].
  cbn [map] in HS. apply StronglySorted_inv in HS as [HS Hall].
  specialize (IH HS).
  destruct r as [|t r]; [repeat constructor|].
  rewrite collapse_adjacent_cons.
  destruct (Z.eqb_spec (fst s) (fst t)) as [E | E]; [exact IH|].
  cbn [map]. constructor; [exact IH|].
  apply Forall_forall. intros z Hz.
  apply in_map_iff in Hz as (u & <- & Hu). apply collapse_adjacent_In in Hu.
  rewrite Forall_forall in Hall.
  pose proof (Hall (fst t) (or_introl eq_refl)) as Hst.
  destruct Hu as [<- | Hu]; [lia|].
  cbn [map] in HS. apply StronglySorted_inv in HS as [_ Htu].
  rewrite Forall_forall in Htu.
  specialize (Htu (fst u) (in_map fst _ _ Hu)). lia.
Qed.

Lemma location_of_lt {V} (a b : Z * V) :
  fst a < fst b -> (location_of a < location_of b)%Q.
Proof. intros H. unfold location_of, Qlt. cbn. lia. Qed.

Lemma locations_increasing {V} (C : list (Z * V)) :
  StronglySorted Z.lt (map fst C) -> StronglySorted Qlt (map location_of C).
Proof.
  induction C as [|c C IH]; cbn [map]; intros HS; [constructor|].
  apply StronglySorted_inv in HS as [HS Hall]. constructor; [apply IH, HS|].
  apply Forall_forall. intros q Hq. apply in_map_iff in Hq as (u & <- & Hu).
  rewrite Forall_forall in Hall. apply location_of_lt, Hall, in_map, Hu.
Qed.

(** X9. Without stops the assertion fails.  From stops sorted by location
    the interpolant gets two lists of the same length, at least two
    entries long, whose locations increase strictly: no location is left
    twice. *)
Theorem collected_stops_increasing {V} (stops : list (Z * V)) :
  (stops = [] -> result (collect_stops stops) = Raise AssertionError)
  /\ (stops <> [] -> Sorted Z.le (map fst stops) ->
      exists (X : list Q) (Y : list V),
        result (collect_stops stops) = Return (X, Y)
        /\ List.length X = List.length Y
        /\ (2 <= List.length X)%nat
        /\ StronglySorted Qlt X).
Proof.
  split; [intros ->; reflexivity|].
  intros Hne HS. unfold collect_stops.
  rewrite (result_bind_return _ _ _ (collect_loop_collapses stops)).
  pose proof (locations_increasing _ (collapse_adjacent_increasing stops HS)) as Hinc.
  destruct stops as [|s r]; [congruence|].
  destruct (collapse_adjacent_head s r) as (c & C & E & _).
  rewrite E in *. destruct C as [|c' C]; cbn [map].
  - exists [0%Q; 1%Q], [snd c; snd c].
    repeat match goal with |- _ /\ _ => split end; try reflexivity; auto.
    repeat constructor.
  - eexists _, _.
    repeat match goal with |- _ /\ _ => split end; try reflexivity.
    + cbn [List.length]. rewrite !length_map. reflexivity.
    + cbn [List.length]. lia.
    + exact Hinc.
Qed.

(** X9 on three stops of which two share a location. *)
Lemma collected_stops_increasing_witness :
  Sorted Z.le (map fst [(0, 1); (2048, 2); (2048, 3)])
  /\ result (collect_stops [(0, 1); (2048, 2); (2048, 3)])
     = Return ([inject_Z 0 / inject_Z 4096; inject_Z 2048 / inject_Z 4096]%Q, [1; 3]).
Proof.
  assert (HS : Sorted Z.le (map fst [(0, 1); (2048, 2); (2048, 3)]))
    by (cbn [map fst]; repeat constructor; lia).
  split; [exact HS|].
  destruct (proj2 (collected_stops_increasing [(0, 1); (2048, 2); (2048, 3)])
              ltac:(discriminate) HS) as (X & Y & E & _).
  reflexivity.
Defined.

Lemma collapse_adjacent_one_location {V} (s : Z * V) (r : list (Z * V)) loc :
  Forall (fun t => fst t = loc) (s :: r) ->
  collapse_adjacent (s :: r) = [last (s :: r) s].
Proof.
  revert s; induction r as [|t r IH]; intros s H; [reflexivity|].
  rewrite collapse_adjacent_cons.
  inversion H as [|? ? Hs Hr]; subst. inversion Hr as [|? ? Ht _]; subst.
  rewrite Ht, Z.eqb_refl. rewrite (IH t Hr).
  change (last (s :: t :: r) s) with (last (t :: r) s).
  rewrite (last_cons_default t r t s). reflexivity.
Qed.

(** X10. Stops that all lie at one location, a single stop among them,
    give the flat ramp from 0 to 1 that carries the value of the last stop
    at both ends, wherever the location is. *)
Theorem one_location_flat_ramp {V} (s : Z * V) (r : list (Z * V)) (loc : Z) :
  Forall (fun t => fst t = loc) (s :: r) ->
  result (collect_stops (s :: r))
  = Return ([0%Q; 1%Q], [snd (last (s :: r) s); snd (last (s :: r) s)]).
Proof.
  intros H. unfold collect_stops.
  rewrite (result_bind_return _ _ _ (collect_loop_collapses (s :: r))).
  rewrite (collapse_adjacent_one_location s r loc H). reflexivity.
Qed.

(** X10 on one stop at 0.3 of the ramp. *)
Lemma one_location_flat_ramp_witness :
  Forall (fun t : Z * Z => fst t = 1229) [(1229, 7)]
  /\ result (collect_stops [(1229, 7)]) = Return ([0%Q; 1%Q], [7; 7]).
Proof.
  assert (H : Forall (fun t : Z * Z => fst t = 1229) [(1229, 7)])
    by (repeat constructor).
  split; [exact H|].
  exact (one_location_flat_ramp (1229, 7) [] 1229 H).
Defined.

(** ** The index field *)

Lemma bind_ext {A B} (m : M A) (f g : A -> M B) :
  (forall a, f a = g a) -> bind m f = bind m g.
Proof.
  intros H. unfold bind. destruct m as [[a|e] l]; [|reflexivity].
  rewrite (H a). reflexivity.
Qed.

Lemma coordinate_fields_run w h setting :
  1 <= w -> 1 <= h -> (0 < scale_factor setting)%Q ->
  exists X Y : field,
    coordinate_fields (w, h) setting = ret (X, Y)
    /\ field_shape (Z.to_nat w) (Z.to_nat h) X
    /\ field_shape (Z.to_nat w) (Z.to_nat h) Y.
Proof.
  intros Hw Hh Hs.
  pose proof (effective_scale_positive w h setting Hw Hh Hs) as Hpos.
  destruct (linspace_spans (- inject_Z w / effective_scale (w, h) setting)%Q
              (inject_Z w / effective_scale (w, h) setting)%Q w Hw) as (xs & Ex & Lx & _).
  destruct (linspace_spans (- inject_Z h / effective_scale (w, h) setting)%Q
              (inject_Z h / effective_scale (w, h) setting)%Q h Hh) as (ys & Ey & Ly & _).
  exists (fst (meshgrid xs ys)), (snd (meshgrid xs ys)).
  unfold coordinate_fields. cbn [fst snd].
  repeat first [ rewrite py_div_run by exact Hpos
               | rewrite bind_ret_l | rewrite Ex | rewrite Ey ].
  split; [reflexivity|]. unfold meshgrid, field_shape. cbn [fst snd].
  rewrite !length_map, Ly.
  split; (split; [reflexivity|]); apply Forall_forall; intros row Hrow;
    apply in_map_iff in Hrow as (y & <- & _); [exact Lx | rewrite length_map; exact Lx].
Qed.

Lemma field_map2_shape w h f X Y :
  field_shape w h X -> field_shape w h Y -> field_shape w h (field_map2 f X Y).
Proof.
  intros [LX FX] [LY FY]. unfold field_map2, field_shape.
  split; [rewrite zip_with_length; congruence|].
  eapply zip_with_Forall; [exact FX | exact FY |].
  cbv beta. intros a b La Lb. rewrite zip_with_length; congruence.
Qed.

Lemma clamp_unit w h F :
  field_shape w h F -> unit_field w h (field_map (fun z => Qmax 0 (Qmin 1 z)) F).
Proof.
  intros [L FF]. unfold unit_field, field_map. rewrite length_map.
  split; [exact L|]. apply Forall_forall. intros row Hrow.
  apply in_map_iff in Hrow as (r & <- & Hr). rewrite Forall_forall in FF.
  rewrite length_map. split; [apply FF, Hr|].
  apply Forall_forall. intros z Hz. apply in_map_iff in Hz as (z0 & <- & _).
  split.
  - apply Q.le_max_l.
  - apply Q.max_lub; [discriminate | apply Q.le_min_l].
Qed.

Lemma reverse_unit w h F :
  unit_field w h F -> unit_field w h (field_map (fun z => (1 - z)%Q) F).
Proof.
  intros [L FF]. unfold unit_field, field_map. rewrite length_map.
  split; [exact L|]. apply Forall_forall. intros row Hrow.
  apply in_map_iff in Hrow as (r & <- & Hr). rewrite Forall_forall in FF.
  destruct (FF r Hr) as [Lr Ur]. rewrite length_map. split; [exact Lr|].
  apply Forall_forall. intros z Hz. apply in_map_iff in Hz as (z0 & <- & Hz0).
  rewrite Forall_forall in Ur. specialize (Ur z0 Hz0). lra.
Qed.

Lemma repeat_shape w h (c : Q) : field_shape w h (repeat (repeat c w) h).
Proof.
  unfold field_shape. rewrite repeat_length. split; [reflexivity|].
  apply Forall_forall. intros row Hrow. apply repeat_spec in Hrow. subst row.
  apply repeat_length.
Qed.

Section IndexFieldFacts.

Context {I : Imaging} {N : Numeric}.

(** [draw_gradient_fill] is the index field, the colour map and the
    opacity, in this order. *)
Lemma draw_gradient_fill_steps env m sz setting :
  numpy_available env = true ->
  draw_gradient_fill env m sz setting
  = (Z0 <- index_field sz setting ;;
     im <- _apply_color_map env m (Key_Gradient setting) Z0 ;;
     _apply_opacity im setting).
Proof.
  intros Hnp. unfold draw_gradient_fill, index_field. rewrite Hnp. cbn [negb].
  rewrite bind_assoc. apply bind_ext. intros [X Y].
  destruct (Key_Type setting) as [kind|]; [|reflexivity].
  rewrite bind_assoc. apply bind_ext. intros Z0.
  rewrite bind_ret_l. apply bind_ext. intros im. apply bind_ret_r.
Qed.

Lemma index_field_run w h setting kind :
  1 <= w -> 1 <= h -> (0 < scale_factor setting)%Q ->
  Key_Type setting = Some kind ->
  exists Z0 : field,
    index_field (w, h) setting = (Return Z0, kind_logs kind)
    /\ unit_field (Z.to_nat w) (Z.to_nat h) Z0.
Proof.
  intros Hw Hh Hs Hk.
  destruct (coordinate_fields_run w h setting Hw Hh Hs) as (X & Y & Ec & SX & SY).
  unfold index_field. rewrite Ec, bind_ret_l, Hk. cbn [fst snd].
  assert (Hrev : forall F, field_shape (Z.to_nat w) (Z.to_nat h) F ->
            unit_field (Z.to_nat w) (Z.to_nat h)
              (if get (Key_Reverse setting) false
               then field_map (fun z => (1 - z)%Q)
                      (field_map (fun z => Qmax 0 (Qmin 1 z)) F)
               else field_map (fun z => Qmax 0 (Qmin 1 z)) F)).
  { intros F HF. destruct (get (Key_Reverse setting) false);
      [apply reverse_unit|]; apply clamp_unit, HF. }
  destruct kind; eexists; (split; [reflexivity|]); apply Hrev;
    try (apply field_map2_shape; assumption).
  apply repeat_shape.
Qed.

End IndexFieldFacts.

Section GradientFacts.

Context {I : Imaging} {N : Numeric}.

(** X11. On a canvas of at least one pixel each way and at a positive
    scale, whatever the gradient kind and whatever the numeric routines
    return, the field handed to the colour map has one row per pixel row,
    one value per pixel column, and every value between 0 and 1; the only
    record logged before the colour map is the warning of an unknown
    kind. *)
Theorem index_field_in_unit_interval (env : environment) (m : string) (w h : Z)
  (setting : descriptor) (kind : gradient_kind) :
  numpy_available env = true ->
  1 <= w -> 1 <= h -> (0 < scale_factor setting)%Q ->
  Key_Type setting = Some kind ->
  exists Z0 : field,
    unit_field (Z.to_nat w) (Z.to_nat h) Z0
    /\ index_field (w, h) setting = (Return Z0, kind_logs kind)
    /\ draw_gradient_fill env m (w, h) setting
       = (Z1 <- index_field (w, h) setting ;;
          im <- _apply_color_map env m (Key_Gradient setting) Z1 ;;
          _apply_opacity im setting).
Proof.
  intros Hnp Hw Hh Hs Hk.
  destruct (index_field_run w h setting kind Hw Hh Hs Hk) as (Z0 & E & U).
  exists Z0. split; [exact U | split; [exact E|]].
  apply draw_gradient_fill_steps, Hnp.
Qed.

Lemma effective_scale_zero sz setting :
  (scale_factor setting == 0)%Q \/ sz = (0, 0) ->
  Qeq_bool (effective_scale sz setting) 0 = true.
Proof.
  intros H. apply Qeq_bool_iff. unfold effective_scale.
  fold (scale_factor setting). destruct H as [H | ->].
  - rewrite H. ring.
  - cbn [fst snd]. change (inject_Z 0) with 0%Q. ring.
Qed.

(** X12. With numpy installed, a gradient fill at scale 0, or on a canvas
    of size (0, 0), divides by zero: it raises [ZeroDivisionError] and logs
    nothing, whatever the rest of the setting. *)
Theorem gradient_fill_zero_scale (env : environment) (m : string) (sz : Z * Z)
  (setting : descriptor) :
  numpy_available env = true ->
  (scale_factor setting == 0)%Q \/ sz = (0, 0) ->
  draw_gradient_fill env m sz setting = raise ZeroDivisionError.
Proof.
  intros Hnp Hz. unfold draw_gradient_fill, coordinate_fields, py_div.
  rewrite Hnp, (effective_scale_zero sz setting Hz). reflexivity.
Qed.

(** X13. With both packages, on a canvas of at least one pixel each way
    and at a positive scale, a setting without [Key.Type], without
    [Key.Gradient], or whose gradient has no form raises [AttributeError];
    a custom-stops gradient without stops fails its assertion. *)
Theorem gradient_fill_missing_keys (env : environment) (m : string) (w h : Z)
  (setting : descriptor) :
  numpy_available env = true -> scipy_available env = true ->
  1 <= w -> 1 <= h -> (0 < scale_factor setting)%Q ->
  (Key_Type setting = None ->
   result (draw_gradient_fill env m (w, h) setting) = Raise AttributeError)
  /\ (forall kind, Key_Type setting = Some kind ->
      Key_Gradient setting = None ->
      result (draw_gradient_fill env m (w, h) setting) = Raise AttributeError)
  /\ (forall kind grad, Key_Type setting = Some kind ->
      Key_Gradient setting = Some grad ->
      Type_GradientForm grad = None ->
      result (draw_gradient_fill env m (w, h) setting) = Raise AttributeError)
  /\ (forall kind grad, Key_Type setting = Some kind ->
      Key_Gradient setting = Some grad ->
      Type_GradientForm grad = Some CustomStops ->
      get (Key_Colors grad) [] = [] ->
      result (draw_gradient_fill env m (w, h) setting) = Raise AssertionError).
Proof.
  intros Hnp Hsp Hw Hh Hs.
  repeat match goal with |- _ /\ _ => split end.
  - intros Hk. unfold draw_gradient_fill. rewrite Hnp. cbn [negb].
    destruct (coordinate_fields_run w h setting Hw Hh Hs) as (X & Y & Ec & _).
    rewrite Ec, bind_ret_l, Hk. reflexivity.
  - intros kind Hk Hg. rewrite draw_gradient_fill_steps by exact Hnp.
    destruct (index_field_run w h setting kind Hw Hh Hs Hk) as (Z0 & E & _).
    rewrite (result_bind_return _ _ Z0) by (rewrite E; reflexivity).
    unfold _apply_color_map. rewrite Hnp, Hsp, Hg. reflexivity.
  - intros kind grad Hk Hg Hf. rewrite draw_gradient_fill_steps by exact Hnp.
    destruct (index_field_run w h setting kind Hw Hh Hs Hk) as (Z0 & E & _).
    rewrite (result_bind_return _ _ Z0) by (rewrite E; reflexivity).
    unfold _apply_color_map. rewrite Hnp, Hsp, Hg, Hf. reflexivity.
  - intros kind grad Hk Hg Hf Hc. rewrite draw_gradient_fill_steps by exact Hnp.
    destruct (index_field_run w h setting kind Hw Hh Hs Hk) as (Z0 & E & _).
    rewrite (result_bind_return _ _ Z0) by (rewrite E; reflexivity).
    unfold _apply_color_map, stops_color_map. rewrite Hnp, Hsp, Hg, Hf, Hc. reflexivity.
Qed.

(** X14. A gradient kind that is none of the five logs a warning and
    gives the uniform field of 0.5, which clamping and reversal leave as
    it is: the fill is the colour map of that field, whatever the angle
    and the reverse flag. *)
Theorem unknown_kind_uniform_field (env : environment) (m : string) (w h : Z)
  (setting : descriptor) (code : string) :
  numpy_available env = true ->
  1 <= w -> 1 <= h -> (0 < scale_factor setting)%Q ->
  Key_Type setting = Some (OtherKind code) ->
  draw_gradient_fill env m (w, h) setting
  = (logger WARNING "Unknown gradient style" ;;;
     im <- _apply_color_map env m (Key_Gradient setting)
             (repeat (repeat (1 # 2)%Q (Z.to_nat w)) (Z.to_nat h)) ;;
     _apply_opacity im setting).
Proof.
  intros Hnp Hw Hh Hs Hk. rewrite draw_gradient_fill_steps by exact Hnp.
  assert (E : index_field (w, h) setting
              = (Return (repeat (repeat (1 # 2)%Q (Z.to_nat w)) (Z.to_nat h)),
                 [(WARNING, "Unknown gradient style")])).
  { destruct (coordinate_fields_run w h setting Hw Hh Hs) as (X & Y & Ec & _).
    unfold index_field. rewrite Ec, bind_ret_l, Hk. cbn [fst snd].
    cbv [bind logger ret app]. unfold field_map. rewrite !map_repeat.
    destruct (get (Key_Reverse setting) false); rewrite ?map_repeat; reflexivity. }
  rewrite E. reflexivity.
Qed.

End GradientFacts.

(** X11 on a 2 x 2 linear fill. *)
Lemma index_field_in_unit_interval_witness :
  (1 <= 2 /\ (0 < scale_factor linear_setting)%Q)
  /\ exists Z0 : field,
       unit_field 2 2 Z0
       /\ index_field (N := rational_numeric) (2, 2) linear_setting = ret Z0.
Proof.
  assert (H2 : 1 <= 2) by lia.
  assert (Hs : (0 < scale_factor linear_setting)%Q) by reflexivity.
  split; [split; assumption|].
  destruct (index_field_in_unit_interval (I := nearest_imaging) (N := rational_numeric)
              full_environment "RGB" 2 2 linear_setting Linear eq_refl H2 H2 Hs eq_refl)
    as (Z0 & U & E & _).
  exists Z0. split; [exact U | exact E].
Defined.

(** X12 on a linear fill at scale 0. *)
Lemma gradient_fill_zero_scale_witness :
  (scale_factor zero_scale_setting == 0)%Q
  /\ draw_gradient_fill (I := nearest_imaging) (N := rational_numeric)
       full_environment "RGB" (2, 2) zero_scale_setting
     = raise ZeroDivisionError.
Proof.
  assert (Hz : (scale_factor zero_scale_setting == 0)%Q) by reflexivity.
  split; [exact Hz|].
  exact (gradient_fill_zero_scale (I := nearest_imaging) (N := rational_numeric)
           full_environment "RGB" (2, 2) zero_scale_setting eq_refl (or_introl Hz)).
Defined.

(** X13 on a fill without [Key.Type]. *)
Lemma gradient_fill_missing_keys_witness :
  (1 <= 2 /\ (0 < scale_factor untyped_setting)%Q)
  /\ result (draw_gradient_fill (I := nearest_imaging) (N := rational_numeric)
               full_environment "RGB" (2, 2) untyped_setting)
     = Raise AttributeError.
Proof.
  assert (H2 : 1 <= 2) by lia.
  assert (Hs : (0 < scale_factor untyped_setting)%Q) by reflexivity.
  split; [split; assumption|].
  exact (proj1 (gradient_fill_missing_keys (I := nearest_imaging) (N := rational_numeric)
                  full_environment "RGB" 2 2 untyped_setting eq_refl eq_refl H2 H2 Hs)
               eq_refl).
Defined.

(** X14 on a fill of unknown kind at angle 30, reversed. *)
Lemma unknown_kind_uniform_field_witness :
  (1 <= 2 /\ (0 < scale_factor unknown_kind_setting)%Q)
  /\ draw_gradient_fill (I := nearest_imaging) (N := rational_numeric)
       full_environment "RGB" (2, 1) unknown_kind_setting
     = (Return (Some (mkImage "RGB" (2, 1) [[200; 200]; [100; 100]; [50; 50]])),
        [(WARNING, "Unknown gradient style"); (DEBUG, "Duplicate stop")]).
Proof.
  assert (H2 : 1 <= 2) by lia.
  assert (H1 : 1 <= 1) by lia.
  assert (Hs : (0 < scale_factor unknown_kind_setting)%Q) by reflexivity.
  split; [split; assumption|].
  rewrite (unknown_kind_uniform_field (I := nearest_imaging) (N := rational_numeric)
             full_environment "RGB" 2 1 unknown_kind_setting "????" eq_refl H2 H1 Hs
             eq_refl).
  reflexivity.
Defined.

(** ** A custom-stops gradient fill that returns *)

(** Collecting stops that are not none returns lists that are not empty,
    and every value collected is the value of a stop. *)
Lemma collect_stops_values {V} (P : V -> Prop) (stops : list (Z * V)) :
  stops <> [] -> Forall (fun s => P (snd s)) stops ->
  exists X Y, result (collect_stops stops) = Return (X, Y) /\ Y <> [] /\ Forall P Y.
Proof.
  intros Hne HP. unfold collect_stops.
  rewrite (result_bind_return _ _ _ (collect_loop_collapses stops)).
  assert (HC : Forall (fun s => P (snd s)) (collapse_adjacent stops)).
  { apply Forall_forall. intros x Hx. rewrite Forall_forall in HP.
    apply HP, collapse_adjacent_In, Hx. }
  destruct stops as [|s r]; [congruence|].
  destruct (collapse_adjacent_head s r) as (c & C & E & _). rewrite E in *.
  inversion HC as [|? ? Hc HC']; subst.
  destruct C as [|c' C]; cbn [map]; eexists _, _;
    (split; [reflexivity | split; [discriminate|]]).
  - repeat constructor; assumption.
  - constructor; [assumption|]. apply Forall_map in HC'. exact HC'.
Qed.

(** The check that the colours make a rectangular array. *)
Lemma uniform_rows_check {A} (Y : list (list A)) (k : nat) :
  Y <> [] -> Forall (fun y => List.length y = k) Y ->
  List.length (hd [] Y) = k
  /\ forallb (fun y => Nat.eqb (List.length y) (List.length (hd [] Y))) Y = true.
Proof.
  intros Hne HF. destruct Y as [|y0 Y]; [congruence|]. cbn [hd].
  pose proof (Forall_inv HF) as H0. split; [exact H0|].
  rewrite H0. apply forallb_forall. intros y Hy.
  rewrite Forall_forall in HF. rewrite (HF y Hy). apply Nat.eqb_refl.
Qed.

Lemma fromarray_fits {I : Imaging} nch pixels m :
  array_bands m = Some nch ->
  fromarray nch pixels m
  = ret (mkImage m
           (Z.of_nat (List.length (hd [] pixels)), Z.of_nat (List.length pixels))
           (map (fun k => flat_map (map (fun px => nth k px 0)) pixels) (seq 0 nch))).
Proof. intros E. unfold fromarray. rewrite E, Nat.eqb_refl. reflexivity. Qed.

Lemma array_size {A B} (g : A -> B) (w h : nat) (F : list (list A)) :
  List.length F = h -> Forall (fun row => List.length row = w) F -> (1 <= h)%nat ->
  (Z.of_nat (List.length (hd [] (map (map g) F))), Z.of_nat (List.length (map (map g) F)))
  = (Z.of_nat w, Z.of_nat h).
Proof.
  intros L FF Hh. rewrite (length_map (map g) F), L.
  destruct F as [|row F]; [cbn [List.length] in L; lia|].
  apply Forall_inv in FF. cbn [map hd]. rewrite length_map, FF. reflexivity.
Qed.

Lemma unit_field_rows w h Z0 : unit_field w h Z0 -> field_shape w h Z0.
Proof.
  intros [L FF]. split; [exact L|]. eapply Forall_impl; [|exact FF]. cbv beta. tauto.
Qed.

Section GradientReturns.

Context {I : Imaging} {N : Numeric}.

(** The custom-stops colour map returns when the colours of the stops
    have the channels of the mode without its alpha suffix. *)
Lemma stops_color_map_returns m grad (w h : nat) Z0 :
  In m fill_modes ->
  get (Key_Colors grad) [] <> [] ->
  Forall (fun stop => getmodebands (rstrip m "A") = Some (List.length (cs_Color stop)))
         (get (Key_Colors grad) []) ->
  Key_Transparency grad <> Some [] ->
  exists im, result (stops_color_map m grad Z0) = Return im
    /\ mode im = match Key_Transparency grad with
                 | Some _ => m
                 | None => rstrip m "A"
                 end
    /\ getmodebands (mode im) <> None
    /\ (field_shape w h Z0 -> (1 <= h)%nat -> size im = (Z.of_nat w, Z.of_nat h)).
Proof.
  intros Hm Hc Hch Ht.
  assert (Hk : exists k, array_bands (rstrip m "A") = Some k
                 /\ getmodebands (rstrip m "A") = Some k).
  { cbn [fill_modes In] in Hm.
    repeat (destruct Hm as [<- | Hm]; [eexists; split; reflexivity|]). destruct Hm. }
  destruct Hk as (k & Hab & Hgb).
  unfold stops_color_map.
  destruct (collect_stops_values (fun y : list Q => List.length y = k)
              (map (fun stop => (cs_Location stop, map (Qmult (mode_scalar m)) (cs_Color stop)))
                   (get (Key_Colors grad) [])))
    as (X & Y & E & Yne & YF).
  { destruct (get (Key_Colors grad) []); [congruence | discriminate]. }
  { apply Forall_map. eapply Forall_impl; [|exact Hch]. cbv beta. intros stop Hs.
    cbn [snd]. rewrite length_map. congruence. }
  rewrite (result_bind_return _ _ _ E).
  destruct (uniform_rows_check Y k Yne YF) as [Hhd Hall].
  rewrite Hall, Hhd. cbn [negb].
  rewrite fromarray_fits by exact Hab. rewrite bind_ret_l.
  assert (Hsz : forall {B} (g : Q -> B), field_shape w h Z0 -> (1 <= h)%nat ->
            (Z.of_nat (List.length (hd [] (map (map g) Z0))),
             Z.of_nat (List.length (map (map g) Z0))) = (Z.of_nat w, Z.of_nat h))
    by (intros B g [L FF] Hh; apply array_size; assumption).
  destruct (Key_Transparency grad) as [[|t ts]|] eqn:Etr; [congruence| |].
  - destruct (collect_stops_values (fun _ : Q => True)
                (map (fun stop => (ts_Location stop, (ts_Opacity stop * (255 # 100))%Q))
                     (t :: ts))) as (X' & Y' & E' & _ & _);
      [discriminate | apply Forall_forall; intros; exact Logic.I |].
    cbn [fill_modes In] in Hm.
    repeat (destruct Hm as [<- | Hm];
            [cbn [endswith Ascii.eqb Bool.eqb];
             first [ rewrite (result_bind_return _ _ _ E');
                     rewrite fromarray_fits by reflexivity; rewrite bind_ret_l;
                     unfold putalpha_image, promote_alpha;
                     cbn [rstrip Ascii.eqb Bool.eqb mode has_alpha_mode
                          String.eqb orb getmodebase dict_get];
                     rewrite !bind_ret_l;
                     eexists; split; [reflexivity|]; split; [reflexivity|]; split;
                     [ cbv; discriminate
                     | intros HS Hh; cbn [set_alpha_band size]; apply Hsz; assumption ]
                   | eexists; split; [reflexivity|]; split; [reflexivity|]; split;
                     [ cbv; discriminate
                     | intros HS Hh; cbn [size]; apply Hsz; assumption ] ]|]).
    destruct Hm.
  - eexists. split; [reflexivity|]. split; [reflexivity|]. split.
    + cbn [mode]. congruence.
    + intros HS Hh. cbn [size]. apply Hsz; assumption.
Qed.

(** X15. With both packages, in one of the modes a fill is asked in, on a
    canvas of at least one pixel each way, at a positive scale and at an
    opacity between 0 and 100, a gradient of any kind returns a raster of
    the size asked when its gradient is of custom stops, with at least one
    colour stop, every colour having the channels of the mode without its
    alpha suffix, and no empty list of transparency stops. *)
Theorem gradient_fill_returns_raster (env : environment) (m : string) (w h : Z)
  (setting : descriptor) (kind : gradient_kind) (grad : gradient) :
  numpy_available env = true -> scipy_available env = true ->
  In m fill_modes ->
  1 <= w -> 1 <= h -> (0 < scale_factor setting)%Q ->
  0 <= opacity_of setting <= 100 ->
  Key_Type setting = Some kind ->
  Key_Gradient setting = Some grad ->
  Type_GradientForm grad = Some CustomStops ->
  get (Key_Colors grad) [] <> [] ->
  Forall (fun stop => getmodebands (rstrip m "A") = Some (List.length (cs_Color stop)))
         (get (Key_Colors grad) []) ->
  Key_Transparency grad <> Some [] ->
  exists im : image,
    result (draw_gradient_fill env m (w, h) setting) = Return (Some im)
    /\ size im = (w, h).
Proof.
  intros Hnp Hsp Hm Hw Hh Hs Hp Hk Hg Hf Hc Hch Ht.
  rewrite draw_gradient_fill_steps by exact Hnp.
  destruct (index_field_run w h setting kind Hw Hh Hs Hk) as (Z0 & E & U).
  rewrite (result_bind_return _ _ Z0) by (rewrite E; reflexivity).
  destruct (stops_color_map_returns m grad (Z.to_nat w) (Z.to_nat h) Z0 Hm Hc Hch Ht)
    as (im0 & E0 & _ & M0 & S0).
  assert (Hmap : result (_apply_color_map env m (Some grad) Z0) = Return (Some im0)).
  { unfold _apply_color_map. rewrite Hnp, Hsp, Hf. cbn [negb orb].
    rewrite (result_bind_return _ _ _ E0). reflexivity. }
  rewrite Hg, (result_bind_return _ _ _ Hmap).
  destruct (apply_opacity_returns im0 setting M0 Hp) as (im & Eo & So & _).
  exists im. rewrite Eo. split; [reflexivity|].
  rewrite So, S0, !Z2Nat.id by (try apply unit_field_rows; try assumption; lia).
  reflexivity.
Qed.

(** X16. In a mode a fill is asked in, with at least one colour stop,
    every colour having the channels of the mode without its alpha suffix,
    and no empty list of transparency stops, the custom-stops colour map
    returns an image whose mode is the mode asked when the gradient has
    transparency stops, and the mode asked without its alpha suffix when it
    has none: without transparency stops a fill asked in RGBA comes back
    in RGB. *)
Theorem custom_stops_mode (m : string) (grad : gradient) (Z0 : field) :
  In m fill_modes ->
  get (Key_Colors grad) [] <> [] ->
  Forall (fun stop => getmodebands (rstrip m "A") = Some (List.length (cs_Color stop)))
         (get (Key_Colors grad) []) ->
  Key_Transparency grad <> Some [] ->
  exists im : image,
    result (stops_color_map m grad Z0) = Return im
    /\ mode im = match Key_Transparency grad with
                 | Some _ => m
                 | None => rstrip m "A"
                 end.
Proof.
  intros Hm Hc Hch Ht.
  destruct (stops_color_map_returns m grad 0 0 Z0 Hm Hc Hch Ht) as (im & E & Em & _).
  exists im. split; assumption.
Qed.

End GradientReturns.

(** X15 on the linear fill from A to D. *)
Lemma gradient_fill_returns_raster_witness :
  (In "RGBA" fill_modes /\ 1 <= 3 /\ 1 <= 2 /\ (0 < scale_factor linear_setting)%Q)
  /\ exists im : image,
       result (draw_gradient_fill (I := nearest_imaging) (N := rational_numeric)
                 full_environment "RGBA" (3, 2) linear_setting)
       = Return (Some im)
       /\ size im = (3, 2).
Proof.
  assert (Hm : In "RGBA" fill_modes) by (cbn; tauto).
  assert (H3 : 1 <= 3) by lia.
  assert (H2 : 1 <= 2) by lia.
  assert (Hs : (0 < scale_factor linear_setting)%Q) by reflexivity.
  assert (Hp : 0 <= opacity_of linear_setting <= 100) by (cbn; lia).
  assert (Hch : Forall (fun stop => getmodebands (rstrip "RGBA" "A")
                                    = Some (List.length (cs_Color stop)))
                  (get (Key_Colors (custom_gradient stops_ABCD)) []))
    by (repeat constructor).
  split; [split; [exact Hm | split; [exact H3 | split; [exact H2 | exact Hs]]]|].
  exact (gradient_fill_returns_raster (I := nearest_imaging) (N := rational_numeric)
           full_environment "RGBA" 3 2 linear_setting Linear (custom_gradient stops_ABCD)
           eq_refl eq_refl Hm H3 H2 Hs Hp eq_refl eq_refl eq_refl
           ltac:(discriminate) Hch ltac:(discriminate)).
Defined.

(** X16 on the gradient from A to D, which has no transparency stops,
    asked in RGBA. *)
Lemma custom_stops_mode_witness :
  In "RGBA" fill_modes
  /\ exists im : image,
       result (stops_color_map (I := nearest_imaging) (N := rational_numeric)
                 "RGBA" (custom_gradient stops_ABCD) [[0%Q]])
       = Return im
       /\ mode im = "RGB".
Proof.
  assert (Hm : In "RGBA" fill_modes) by (cbn; tauto).
  assert (Hch : Forall (fun stop => getmodebands (rstrip "RGBA" "A")
                                    = Some (List.length (cs_Color stop)))
                  (get (Key_Colors (custom_gradient stops_ABCD)) []))
    by (repeat constructor).
  split; [exact Hm|].
  destruct (custom_stops_mode (I := nearest_imaging) (N := rational_numeric)
              "RGBA" (custom_gradient stops_ABCD) [[0%Q]] Hm
              ltac:(discriminate) Hch ltac:(discriminate)) as (im & E & Em).
  exists im. split; [exact E | exact Em].
Defined.

(** ** An empty sub-path in the compositor *)

Lemma zip_with_zeros (f : Z -> Z -> Z) acc :
  zip_with f acc (repeat 0 (List.length acc)) = map (fun a => f a 0) acc.
Proof. induction acc as [|a acc IH]; cbn [List.length repeat zip_with map]; congruence. Qed.

Lemma map_id_on {A} (P : A -> Prop) (f : A -> A) l :
  Forall P l -> (forall a, P a -> f a = a) -> map f l = l.
Proof.
  intros H Hf. induction H as [|a l Ha _ IH]; cbn [map]; [reflexivity|].
  rewrite (Hf a Ha), IH. reflexivity.
Qed.

(** X17. A sub-path without knots paints nothing, so in the loop of the
    compositor its exclusion and its union leave the accumulator as it is,
    its subtraction leaves it as it is after the inversion of a first
    sub-path, and its intersection empties it; in each case the flag is
    cleared. *)
Theorem empty_subpath_in_compositor {R : Rasterizer} (w h : Z) (acc : plane)
  (first : bool) (sp : subpath) :
  knots sp = [] ->
  0 <= w -> 0 <= h ->
  List.length acc = Z.to_nat (w * h) -> eight_bit acc ->
  combine_subpath w h (mkImage "L" (w, h) [acc], first) sp
  = ret (mkImage "L" (w, h)
           [if (operation sp =? 0) || (operation sp =? 1) then acc
            else if operation sp =? 2 then MaskSpec.invert_if first acc
            else if operation sp =? 3 then repeat 0 (Z.to_nat (w * h))
            else acc],
         false).
Proof.
  intros Hk Hw Hh L H8.
  rewrite combine_subpath_run by assumption.
  assert (Hplane : subpath_plane sp w h = repeat 0 (List.length acc)).
  { unfold subpath_plane, _generate_symbol. rewrite Hk, draw_symbol_empty, L.
    reflexivity. }
  rewrite Hplane. unfold MaskSpec.combine_op.
  assert (Hinv : eight_bit (MaskSpec.invert_if first acc)
                 /\ List.length (MaskSpec.invert_if first acc) = List.length acc).
  { unfold MaskSpec.invert_if. destruct first; [|auto].
    split; [apply eight_bit_invert, H8 | apply length_map]. }
  destruct Hinv as [H8i Li].
  destruct (operation sp =? 0); [|destruct (operation sp =? 1);
    [|destruct (operation sp =? 2); [|destruct (operation sp =? 3)]]];
    cbn [orb]; try reflexivity; do 4 f_equal.
  - rewrite zip_with_zeros. apply (map_id_on (fun v => 0 <= v <= 255)); [exact H8 | lia].
  - rewrite zip_with_zeros. apply (map_id_on (fun v => 0 <= v <= 255)); [exact H8 | lia].
  - rewrite <- Li, zip_with_zeros.
    apply (map_id_on (fun v => 0 <= v <= 255)); [exact H8i | lia].
  - rewrite <- Li, zip_with_zeros, <- L, <- Li.
    clear - H8i. generalize dependent (MaskSpec.invert_if first acc).
    intros l H8i. unfold eight_bit in H8i. induction H8i as [|a l Ha _ IH];
      cbn [map List.length repeat]; [reflexivity|].
    rewrite IH. f_equal. lia.
Qed.

(** X17 on the union of an empty path with a grey canvas. *)
Lemma empty_subpath_in_compositor_witness :
  (0 <= 2 /\ eight_bit [10; 200])
  /\ combine_subpath (R := cover_rasterizer) 2 1
       (mkImage "L" (2, 1) [[10; 200]], true) (mkSubpath [] true 1)
     = ret (mkImage "L" (2, 1) [[10; 200]], false).
Proof.
  assert (H2 : 0 <= 2) by lia.
  assert (H1 : 0 <= 1) by lia.
  assert (H8 : eight_bit [10; 200]) by (repeat constructor; lia).
  split; [split; assumption|].
  exact (empty_subpath_in_compositor (R := cover_rasterizer) 2 1 [10; 200] true
           (mkSubpath [] true 1) eq_refl H2 H1 eq_refl H8).
Defined.
